(** * memwallet: the in-memory, reorg-aware wallet of the dcr test harness

    A shallow embedding of [InMemoryWallet] (package [memwallet]) and a
    verification of its ledger operations: block application by the
    [chainSyncer], reversal by [UnwindBlock], address issuance by
    [newAddress], and the read operations [GetBalance] / [ListUnspent].

    Conventions.
    - Go integers are [Z] with the wrap-around written out ([uint32],
      [int64] below).
    - Go maps are stdpp [gmap]s.  A [range] over a map visits the entries
      in an order chosen by the runtime; the choice is an explicit argument
      (a [rangeOrder]), so every theorem holds for every order.
    - A pointer to a [utxo] is owned by exactly one container at a time (the [utxos]
      map, or one [utxosDestroyed] map of the journal): [evalInputs] moves
      the pointer out of [utxos] and [UnwindBlock] moves it back.  Records
      are therefore embedded by value.
    - Calls into collaborators that are not part of the package (header
      decoding, HD key derivation, the node's RPC client) are section
      variables. *)

From Stdlib Require Import ZArith List Lia.
From Stdlib Require Import Strings.Byte.
From stdpp Require Import gmap list fin_maps strings.

Local Open Scope Z_scope.

(** ** Machine integers *)

(** Conversion to [uint32]: reduction modulo 2^32. *)
Definition uint32 (z : Z) : Z := z mod 2 ^ 32.

(** Conversion to (and arithmetic in) [int64]: two's complement wrap. *)
Definition int64 (z : Z) : Z := (z + 2 ^ 63) mod 2 ^ 64 - 2 ^ 63.

Definition in_int64 (z : Z) : Prop := - 2 ^ 63 <= z < 2 ^ 63.

(** ** Byte slices *)

Abbreviation bytes := (list byte).

#[global] Instance byte_eq_decision : EqDecision byte := byte_eq_dec.

#[global] Program Instance byte_countable : Countable byte :=
  inj_countable Byte.to_N Byte.of_N _.
Next Obligation. intros b. apply Byte.of_to_N. Qed.

(** [bytes.HasPrefix]. *)
Fixpoint bytes_HasPrefix (s pre : bytes) : bool :=
  match pre, s with
  | [], _ => true
  | _ :: _, [] => false
  | p :: pre', c :: s' => bool_decide (p = c) && bytes_HasPrefix s' pre'
  end.

(** [bytes.Contains b subslice]: [subslice] occurs somewhere within [b]. *)
Fixpoint bytes_Contains (b sub : bytes) : bool :=
  bytes_HasPrefix b sub ||
  match b with
  | [] => false
  | _ :: b' => bytes_Contains b' sub
  end.

(** ** Go control outcomes *)

Definition error := string.

Inductive panic :=
  | PanicError (e : error)       (* panic(err) *)
  | NilDereference               (* field access through a nil pointer *)
  | IndexOutOfRange.             (* s[0] on an empty slice *)

Inductive outcome (A : Type) :=
  | Returns (a : A)
  | Panics (p : panic).
Arguments Returns {A} a.
Arguments Panics {A} p.

(** ** Map iteration order *)

(** The order in which one [for k, v := range m] statement visits the
    entries of [m]: any rearrangement of the entries. *)
Record rangeOrder (A : Type) := RangeOrder {
  permute : list A -> list A;
  permute_perm : forall l, permute l ≡ₚ l
}.
Arguments permute {A} _ _.
Arguments permute_perm {A} _ _.

Definition range {K V} `{Countable K}
    (o : rangeOrder (K * V)) (m : gmap K V) : list (K * V) :=
  permute o (map_to_list m).

Definition inOrder {A} : rangeOrder A :=
  {| permute := fun l => l; permute_perm := fun l => reflexivity l |}.

Definition reversed {A} : rangeOrder A :=
  {| permute := @rev A; permute_perm := fun l => Permutation_sym (Permutation_rev l) |}.

(** ** Data model *)

(** [coinharness.OutPoint]: the identity of a transaction output. *)
Record OutPoint := mkOutPoint {
  Hash : bytes;
  Index : Z                       (* uint32 *)
}.

#[global] Instance OutPoint_eq_decision : EqDecision OutPoint.
Proof. solve_decision. Defined.

#[global] Program Instance OutPoint_countable : Countable OutPoint :=
  inj_countable' (fun op => (Hash op, Index op))
                 (fun p => mkOutPoint p.1 p.2) _.
Next Obligation. by intros []. Qed.

(** [dcrutil.Address], observed through [ScriptAddress()]. *)
Record Address := mkAddress {
  ScriptAddress : bytes
}.

(** [coinharness.Network], observed through [CoinbaseMaturity()]; the field
    holds the value after the conversion [int64(...)]. *)
Record Network := mkNetwork {
  CoinbaseMaturity : Z
}.

(** Modelled from the spec: the struct [utxo], which the package declares
    in another file.  Section 3, Output Record: "value,
    owning-address derivation index, maturity height (0 if not
    coinbase-constrained), locked flag"; the field names, and [pkScript], are
    those [evalOutputs] assigns.  [value] is the [AtomsValue] (int64) of the
    record's [CoinsAmount]. *)
Record utxo := mkUtxo {
  value : Z;                      (* int64 *)
  keyIndex : Z;                   (* uint32 *)
  maturityHeight : Z;             (* int64 *)
  pkScript : bytes;
  isLocked : bool
}.

(** Modelled from the spec: the struct [undoEntry], declared in another file of
    the package.  Section 3, Undo Entry: "the set of output identities
    created by that block" and "the full prior records of any outputs
    destroyed by that block"; [utxosCreated] is a slice the source appends
    to, [utxosDestroyed] a map. *)
Record undoEntry := mkUndo {
  utxosDestroyed : gmap OutPoint utxo;
  utxosCreated : list OutPoint
}.

Record TxOut := mkTxOut {
  PkScript : bytes;
  Amount : Z                      (* AtomsValue, int64 *)
}.

Record InputTx := mkInputTx {
  PreviousOutPoint : OutPoint
}.

Record MessageTx := mkMessageTx {
  TxHash : bytes;
  TxOut_ : list TxOut;
  TxIn_ : list InputTx
}.

Record Tx := mkTx {
  MsgTx : MessageTx
}.

(** Modelled from the spec: the struct [chainUpdate], declared in another file of
    the package.  Section 3, Chain Update: "(height, ordered list of
    filtered transactions believed relevant to owned addresses)". *)
Record chainUpdate := mkChainUpdate {
  blockHeight : Z;                (* int64 *)
  filteredTxns : list Tx
}.

(** [wire.BlockHeader], observed through its [Height] field. *)
Record BlockHeader := mkBlockHeader {
  Height : Z                      (* uint32 *)
}.

(** [coinharness.Unspent] as built by [ListUnspent]. *)
Record Unspent := mkUnspent {
  Account : string;
  UnspentAmount : Z
}.

Record GetBalanceResult := mkGetBalanceResult {
  TotalSpendable : Z
}.

(** Modelled from the spec: the method [isMature] of [utxo], which the package
    declares in another file.  Section 4.5: a record is excluded
    when its "maturity height exceeds current height". *)
Definition isMature (u : utxo) (height : Z) : bool :=
  bool_decide (maturityHeight u <= height).

(** Modelled from the spec: the string constants [chainUpdateSignal] and
    [stopSignal], declared in another file of the package.  Section 4.3: the
    shutdown signal is posted to the channel that carries the work-available
    notifications. *)
Inductive signal :=
  | chainUpdateSignal
  | stopSignal.

Section Wallet.

(** ** Collaborators outside the package *)

Context {ExtendedKey PrivateKey Node : Type}.

(** [hdkeychain]: [(k *ExtendedKey) Child(i uint32)] and [ECPrivKey()]. *)
Variable Child : ExtendedKey -> Z -> error + ExtendedKey.
Variable ECPrivKey : ExtendedKey -> error + PrivateKey.
(** [keyToAddr(key, net)], a function of the package declared in another file of
    the package. *)
Variable keyToAddr : PrivateKey -> Network -> error + Address.
(** [rpcclient.Client.LoadTxFilter(reload, addresses, nil)] acting on the
    node behind the connection. *)
Variable LoadTxFilter : bool -> list Address -> Node -> option error * Node.
(** [wire.BlockHeader.FromBytes]. *)
Variable FromBytes : bytes -> error + BlockHeader.

(** ** The wallet *)

Record InMemoryWallet := mkWallet {
  hdRoot : ExtendedKey;
  hdIndex : Z;                                  (* uint32 *)
  currentHeight : Z;                            (* int64 *)
  addrs : gmap Z Address;
  utxos : gmap OutPoint utxo;
  reorgJournal : gmap Z undoEntry;
  chainUpdates : list chainUpdate;
  net : Network;
  NewTxFromBytes : bytes -> error + Tx;
  IsCoinBaseTx : MessageTx -> bool
}.

Definition set_hdIndex (x : Z) (w : InMemoryWallet) : InMemoryWallet :=
  mkWallet (hdRoot w) x (currentHeight w) (addrs w) (utxos w)
    (reorgJournal w) (chainUpdates w) (net w) (NewTxFromBytes w) (IsCoinBaseTx w).

Definition set_currentHeight (x : Z) (w : InMemoryWallet) : InMemoryWallet :=
  mkWallet (hdRoot w) (hdIndex w) x (addrs w) (utxos w)
    (reorgJournal w) (chainUpdates w) (net w) (NewTxFromBytes w) (IsCoinBaseTx w).

Definition set_addrs (x : gmap Z Address) (w : InMemoryWallet) : InMemoryWallet :=
  mkWallet (hdRoot w) (hdIndex w) (currentHeight w) x (utxos w)
    (reorgJournal w) (chainUpdates w) (net w) (NewTxFromBytes w) (IsCoinBaseTx w).

Definition set_utxos (x : gmap OutPoint utxo) (w : InMemoryWallet) : InMemoryWallet :=
  mkWallet (hdRoot w) (hdIndex w) (currentHeight w) (addrs w) x
    (reorgJournal w) (chainUpdates w) (net w) (NewTxFromBytes w) (IsCoinBaseTx w).

Definition set_reorgJournal (x : gmap Z undoEntry) (w : InMemoryWallet) : InMemoryWallet :=
  mkWallet (hdRoot w) (hdIndex w) (currentHeight w) (addrs w) (utxos w)
    x (chainUpdates w) (net w) (NewTxFromBytes w) (IsCoinBaseTx w).

Definition set_chainUpdates (x : list chainUpdate) (w : InMemoryWallet) : InMemoryWallet :=
  mkWallet (hdRoot w) (hdIndex w) (currentHeight w) (addrs w) (utxos w)
    (reorgJournal w) x (net w) (NewTxFromBytes w) (IsCoinBaseTx w).

(** [SyncedHeight]. *)
Definition SyncedHeight (w : InMemoryWallet) : Z := currentHeight w.

(** ** evalOutputs *)

(** The state the two [eval] loops work on: the wallet and the undo entry
    under construction (passed by pointer in the source). *)
Definition evalState : Type := InMemoryWallet * undoEntry.

(** Body of the inner loop of [evalOutputs]: one owned address
    [(keyIndex, addr)] against output [i] of the transaction. *)
Definition evalOutput_addr (i : nat) (output : TxOut) (txHash : bytes)
    (isCoinbase : bool) (st : evalState) (ka : Z * Address) : evalState :=
  let pkScript := PkScript output in
  let pkHash := ScriptAddress ka.2 in
  if negb (bytes_Contains pkScript pkHash) then st
  else
    let maturityHeight :=
      if isCoinbase
      then int64 (currentHeight st.1 + CoinbaseMaturity (net st.1))
      else 0 in
    let op := {| Hash := txHash; Index := uint32 (Z.of_nat i) |} in
    let rec := {| value := Amount output; keyIndex := ka.1;
                  maturityHeight := maturityHeight; pkScript := pkScript;
                  isLocked := false |} in
    (set_utxos (<[op := rec]> (utxos st.1)) st.1,
     {| utxosDestroyed := utxosDestroyed st.2;
        utxosCreated := utxosCreated st.2 ++ [op] |}).

(** The inner loop: [for keyIndex, addr := range wallet.addrs]. *)
Definition evalOutput (o : rangeOrder (Z * Address)) (i : nat) (output : TxOut)
    (txHash : bytes) (isCoinbase : bool) (st : evalState) : evalState :=
  foldl (evalOutput_addr i output txHash isCoinbase) st (range o (addrs st.1)).

(** The outer loop: [for i, output := range outputs], from index [i] on.
    [orders j] is the order in which the address table is visited for
    output [j]. *)
Fixpoint evalOutputs_from (orders : nat -> rangeOrder (Z * Address)) (i : nat)
    (outputs : list TxOut) (txHash : bytes) (isCoinbase : bool)
    (st : evalState) : evalState :=
  match outputs with
  | [] => st
  | output :: rest =>
      evalOutputs_from orders (S i) rest txHash isCoinbase
        (evalOutput (orders i) i output txHash isCoinbase st)
  end.

Definition evalOutputs (orders : nat -> rangeOrder (Z * Address))
    (outputs : list TxOut) (txHash : bytes) (isCoinbase : bool)
    (st : evalState) : evalState :=
  evalOutputs_from orders 0 outputs txHash isCoinbase st.

(** ** evalInputs *)

(** Body of the loop of [evalInputs]. *)
Definition evalInput (st : evalState) (txIn : InputTx) : evalState :=
  let op := PreviousOutPoint txIn in
  match utxos st.1 !! op with
  | None => st
  | Some oldUtxo =>
      (set_utxos (delete op (utxos st.1)) st.1,
       {| utxosDestroyed := <[op := oldUtxo]> (utxosDestroyed st.2);
          utxosCreated := utxosCreated st.2 |})
  end.

Definition evalInputs (inputs : list InputTx) (st : evalState) : evalState :=
  foldl evalInput st inputs.

(** ** chainSyncer: applying one update *)

(** The transaction loop of [chainSyncer], from transaction number [t] on.
    [orders t i] is the visiting order of the address table for output [i]
    of transaction [t]. *)
Fixpoint applyTxns (orders : nat -> nat -> rangeOrder (Z * Address)) (t : nat)
    (txns : list Tx) (st : evalState) : evalState :=
  match txns with
  | [] => st
  | tx :: rest =>
      let mtx := MsgTx tx in
      let isCoinbase := IsCoinBaseTx st.1 mtx in
      let txHash := TxHash mtx in
      let st1 := evalOutputs (orders t) (TxOut_ mtx) txHash isCoinbase st in
      let st2 := evalInputs (TxIn_ mtx) st1 in
      applyTxns orders (S t) rest st2
  end.

(** The part of one [chainSyncer] iteration that runs under [wallet.Lock()]. *)
Definition applyUpdate (orders : nat -> nat -> rangeOrder (Z * Address))
    (update : chainUpdate) (w : InMemoryWallet) : InMemoryWallet :=
  let w1 := set_currentHeight (blockHeight update) w in
  let undo := {| utxosDestroyed := ∅; utxosCreated := [] |} in
  let st := applyTxns orders 0 (filteredTxns update) (w1, undo) in
  set_reorgJournal (<[blockHeight update := st.2]> (reorgJournal st.1)) st.1.

(** One iteration of the [for s := range wallet.chainUpdateSignal] loop.
    The boolean tells whether the loop goes on. *)
Definition chainSyncer_iter (orders : nat -> nat -> rangeOrder (Z * Address))
    (s : signal) (w : InMemoryWallet) : outcome (bool * InMemoryWallet) :=
  match s with
  | stopSignal => Returns (false, w)
  | chainUpdateSignal =>
      match chainUpdates w with
      | [] => Panics IndexOutOfRange
      | update :: rest =>
          let w1 := set_chainUpdates rest w in
          Returns (true, applyUpdate orders update w1)
      end
  end.

(** ** UnwindBlock *)

Definition deleteCreated (created : list OutPoint) (m : gmap OutPoint utxo)
    : gmap OutPoint utxo :=
  foldl (fun acc op => delete op acc) m created.

Definition restoreDestroyed (destroyed : list (OutPoint * utxo))
    (m : gmap OutPoint utxo) : gmap OutPoint utxo :=
  foldl (fun acc ou => <[ou.1 := ou.2]> acc) m destroyed.

(** [UnwindBlock(header)].  A height without a journal entry makes
    [m.reorgJournal[height]] the nil pointer, and reading
    [undo.utxosCreated] through it panics. *)
Definition UnwindBlock (o : rangeOrder (OutPoint * utxo)) (header : bytes)
    (m : InMemoryWallet) : outcome InMemoryWallet :=
  match FromBytes header with
  | inl err => Panics (PanicError err)
  | inr hdr =>
      let height := uint32 (Height hdr) in     (* int64(hdr.Height) *)
      match reorgJournal m !! height with
      | None => Panics NilDereference
      | Some undo =>
          let u1 := deleteCreated (utxosCreated undo) (utxos m) in
          let u2 := restoreDestroyed (range o (utxosDestroyed undo)) u1 in
          Returns (set_reorgJournal (delete height (reorgJournal m))
                     (set_utxos u2 m))
      end
  end.

(** ** IngestBlock *)

(** The decoding loop of [IngestBlock]: stops with a panic at the first
    transaction that does not decode. *)
Fixpoint decodeTxns (dec : bytes -> error + Tx) (filteredTxns : list bytes)
    (txns : list Tx) : outcome (list Tx) :=
  match filteredTxns with
  | [] => Returns txns
  | txBytes :: rest =>
      match dec txBytes with
      | inl err => Panics (PanicError err)
      | inr tx => decodeTxns dec rest (txns ++ [tx])
      end
  end.

(** [IngestBlock(header, filteredTxns)] up to and including the append under
    [chainMtx]; what remains is the goroutine that sends
    [chainUpdateSignal]. *)
Definition IngestBlock (header : bytes) (filteredTxns : list bytes)
    (m : InMemoryWallet) : outcome InMemoryWallet :=
  match FromBytes header with
  | inl err => Panics (PanicError err)
  | inr hdr =>
      let height := uint32 (Height hdr) in     (* int64(hdr.Height) *)
      match decodeTxns (NewTxFromBytes m) filteredTxns [] with
      | Panics p => Panics p
      | Returns txns =>
          Returns (set_chainUpdates
                     (chainUpdates m ++ [mkChainUpdate height txns]) m)
      end
  end.

(** ** newAddress / NewAddress *)

(** [newAddress()].  The node is the state behind [wallet.nodeRPC]. *)
Definition newAddress (w : InMemoryWallet) (node : Node)
    : (error + Address) * InMemoryWallet * Node :=
  let index := hdIndex w in
  match Child (hdRoot w) index with
  | inl err => (inl err, w, node)
  | inr childKey =>
      match ECPrivKey childKey with
      | inl err => (inl err, w, node)
      | inr privKey =>
          match keyToAddr privKey (net w) with
          | inl err => (inl err, w, node)
          | inr addr =>
              match LoadTxFilter false [addr] node with
              | (Some err, node1) => (inl err, w, node1)
              | (None, node1) =>
                  let w1 := set_addrs (<[index := addr]> (addrs w)) w in
                  let w2 := set_hdIndex (uint32 (hdIndex w1 + 1)) w1 in
                  (inr addr, w2, node1)
              end
          end
      end
  end.

(** [NewAddress(_)]: [newAddress] under the wallet lock; the address comes
    back wrapped in a [dcrharness.Address]. *)
Definition NewAddress (w : InMemoryWallet) (node : Node)
    : (error + Address) * InMemoryWallet * Node :=
  match newAddress w node with
  | (inl err, w1, node1) => (inl err, w1, node1)
  | (inr add, w1, node1) => (inr add, w1, node1)
  end.

(** [n] calls of [NewAddress] in a row; stops at the first error.  Returns
    the pairs (index registered, address) of the successful calls. *)
Fixpoint NewAddress_n (n : nat) (w : InMemoryWallet) (node : Node)
    : list (Z * Address) * InMemoryWallet * Node :=
  match n with
  | O => ([], w, node)
  | S n' =>
      match NewAddress w node with
      | (inl _, w1, node1) => ([], w1, node1)
      | (inr a, w1, node1) =>
          let '(l, w2, node2) := NewAddress_n n' w1 node1 in
          ((hdIndex w, a) :: l, w2, node2)
      end
  end.

(** ** UnlockOutputs *)

Definition unlock (u : utxo) : utxo :=
  {| value := value u; keyIndex := keyIndex u;
     maturityHeight := maturityHeight u; pkScript := pkScript u;
     isLocked := false |}.

(** Body of the loop of [UnlockOutputs]. *)
Definition unlockOutput (w : InMemoryWallet) (input : InputTx) : InMemoryWallet :=
  match utxos w !! PreviousOutPoint input with
  | None => w
  | Some u => set_utxos (<[PreviousOutPoint input := unlock u]> (utxos w)) w
  end.

Definition UnlockOutputs (inputs : list InputTx) (w : InMemoryWallet)
    : option error * InMemoryWallet :=
  (None, foldl unlockOutput w inputs).

(** ** GetBalance / ListUnspent *)

(** The test that makes both loops [continue]. *)
Definition skipped (w : InMemoryWallet) (u : utxo) : bool :=
  negb (isMature u (currentHeight w)) || isLocked u.

(** Body of the loop of [GetBalance]. *)
Definition addToBalance (w : InMemoryWallet) (balance : Z)
    (e : OutPoint * utxo) : Z :=
  if skipped w e.2 then balance else int64 (balance + value e.2).

(** [GetBalance(account)]: the result, the error, and the wallet after the
    call. *)
Definition GetBalance (o : rangeOrder (OutPoint * utxo)) (account : string)
    (w : InMemoryWallet) : GetBalanceResult * option error * InMemoryWallet :=
  let balance := foldl (addToBalance w) 0 (range o (utxos w)) in
  ({| TotalSpendable := balance |}, None, w).

(** Body of the loop of [ListUnspent]. *)
Definition collectUnspent (w : InMemoryWallet) (result : list Unspent)
    (e : OutPoint * utxo) : list Unspent :=
  if skipped w e.2 then result
  else result ++ [{| Account := EmptyString; UnspentAmount := value e.2 |}].

(** [ListUnspent()]: the selection loop (the statements that follow it in
    the file belong to transaction funding and are not part of it). *)
Definition ListUnspent (o : rangeOrder (OutPoint * utxo)) (w : InMemoryWallet)
    : list Unspent * option error * InMemoryWallet :=
  (foldl (collectUnspent w) [] (range o (utxos w)), None, w).

(** ** The wallet at work: notifications and the synchronizer *)

(** The wallet together with the goroutines around it.  [inflight] counts
    the goroutines launched by [IngestBlock] whose [chainUpdateSignal] the
    synchronizer has not received yet; [running] tells whether the
    [chainSyncer] loop is still going; [synced] logs the value of
    [currentHeight] after each update the synchronizer applied. *)
Record harness := mkHarness {
  wallet : InMemoryWallet;
  inflight : nat;
  running : bool;
  synced : list Z
}.

Inductive event :=
  (* the node calls OnBlockConnected: IngestBlock *)
  | BlockConnected (header : bytes) (filteredTxns : list bytes)
  (* the node calls OnBlockDisconnected: UnwindBlock *)
  | BlockDisconnected (o : rangeOrder (OutPoint * utxo)) (header : bytes)
  (* chainSyncer receives a chainUpdateSignal and runs one iteration *)
  | SyncerWakes (orders : nat -> nat -> rangeOrder (Z * Address))
  (* chainSyncer receives the stopSignal *)
  | SyncerStops.

(** One atomic step.  [None]: the event cannot happen in this state (no
    signal to receive, or the synchronizer is gone).  The pop under
    [chainMtx] and the application under the wallet lock make one step: they
    touch disjoint fields, so a notification that slips in between the two
    could as well have come just before. *)
Definition step (ev : event) (h : harness) : option (outcome harness) :=
  match ev with
  | BlockConnected header filteredTxns =>
      Some match IngestBlock header filteredTxns (wallet h) with
           | Panics p => Panics p
           | Returns w =>
               Returns (mkHarness w (S (inflight h)) (running h) (synced h))
           end
  | BlockDisconnected o header =>
      Some match UnwindBlock o header (wallet h) with
           | Panics p => Panics p
           | Returns w =>
               Returns (mkHarness w (inflight h) (running h) (synced h))
           end
  | SyncerWakes orders =>
      match running h, inflight h with
      | true, S n =>
          Some match chainSyncer_iter orders chainUpdateSignal (wallet h) with
               | Panics p => Panics p
               | Returns (_, w) =>
                   Returns (mkHarness w n true (synced h ++ [currentHeight w]))
               end
      | _, _ => None
      end
  | SyncerStops =>
      if running h then
        Some match chainSyncer_iter (fun _ _ => inOrder) stopSignal (wallet h) with
             | Panics p => Panics p
             | Returns (continue, w) =>
                 Returns (mkHarness w (inflight h) continue (synced h))
             end
      else None
  end.

(** A run: the events of a schedule, one after the other. *)
Fixpoint run (evs : list event) (h : harness) : option (outcome harness) :=
  match evs with
  | [] => Some (Returns h)
  | ev :: rest =>
      match step ev h with
      | None => None
      | Some (Panics p) => Some (Panics p)
      | Some (Returns h1) => run rest h1
      end
  end.

(** The heights of the updates a schedule enqueues, in enqueue order. *)
Definition enqueuedHeight (ev : event) : option Z :=
  match ev with
  | BlockConnected header _ =>
      match FromBytes header with
      | inr hdr => Some (uint32 (Height hdr))
      | inl _ => None
      end
  | _ => None
  end.

Definition enqueuedHeights (evs : list event) : list Z :=
  omap enqueuedHeight evs.

(** ** unwindBlock *)

(** [unwindBlock(update)]: the steps of [UnwindBlock] for the height of an
    update (the caller holds the wallet lock). *)
Definition unwindBlock (o : rangeOrder (OutPoint * utxo)) (update : chainUpdate)
    (w : InMemoryWallet) : outcome InMemoryWallet :=
  match reorgJournal w !! blockHeight update with
  | None => Panics NilDereference
  | Some undo =>
      let u1 := deleteCreated (utxosCreated undo) (utxos w) in
      let u2 := restoreDestroyed (range o (utxosDestroyed undo)) u1 in
      Returns (set_reorgJournal (delete (blockHeight update) (reorgJournal w))
                 (set_utxos u2 w))
  end.

(** ** updateTxFilter *)

(** The loop of [updateTxFilter]: the addresses of the table, in visiting
    order. *)
Definition filterAddrs (o : rangeOrder (Z * Address)) (w : InMemoryWallet)
    : list Address :=
  foldl (fun acc kv => acc ++ [kv.2]) [] (range o (addrs w)).

(** [updateTxFilter()] up to the call of the node; the error it returns goes
    to [pin.CheckTestSetupMalfunction]. *)
Definition updateTxFilter (o : rangeOrder (Z * Address)) (w : InMemoryWallet)
    (node : Node) : option error * Node :=
  LoadTxFilter true (filterAddrs o w) node.

(** ** Vocabulary of the statements *)

(** [sameButUtxos w w']: [w'] is [w] with another Output Record set. *)
Definition sameButUtxos (w w' : InMemoryWallet) : Prop :=
  w' = set_utxos (utxos w') w.

(** Some step of [newAddress] fails with [err]: the child key derivation,
    the private key extraction, the address derivation, or the registration
    with the node's transaction filter. *)
Definition issueStepFails (w : InMemoryWallet) (node : Node) (err : error) : Prop :=
  Child (hdRoot w) (hdIndex w) = inl err \/
  exists childKey, Child (hdRoot w) (hdIndex w) = inr childKey /\
    (ECPrivKey childKey = inl err \/
     exists privKey, ECPrivKey childKey = inr privKey /\
       (keyToAddr privKey (net w) = inl err \/
        exists addr, keyToAddr privKey (net w) = inr addr /\
          (LoadTxFilter false [addr] node).1 = Some err)).

(** What one entry adds to the balance, and the exact (unwrapped) sum over
    a list of entries. *)
Definition contribution (w : InMemoryWallet) (e : OutPoint * utxo) : Z :=
  if skipped w e.2 then 0 else value e.2.

Definition total (w : InMemoryWallet) (l : list (OutPoint * utxo)) : Z :=
  foldr (fun e acc => contribution w e + acc) 0 l.

(** The wallet with the record at [op] taken out of the ledger. *)
Definition without (op : OutPoint) (w : InMemoryWallet) : InMemoryWallet :=
  set_utxos (delete op (utxos w)) w.

Definition balanceOf (o : rangeOrder (OutPoint * utxo)) (account : string)
    (w : InMemoryWallet) : Z :=
  TotalSpendable (GetBalance o account w).1.1.

Definition listingOf (o : rangeOrder (OutPoint * utxo)) (w : InMemoryWallet)
    : list Unspent :=
  (ListUnspent o w).1.1.

Definition selected (w : InMemoryWallet) (e : OutPoint * utxo) : option Unspent :=
  if skipped w e.2 then None
  else Some {| Account := EmptyString; UnspentAmount := value e.2 |}.

(** The outpoint [evalOutputs] builds for output [i] of a transaction. *)
Definition outpointOf (txHash : bytes) (i : nat) : OutPoint :=
  {| Hash := txHash; Index := uint32 (Z.of_nat i) |}.

(** The record [evalOutputs] stores for an output paying key [keyIdx]. *)
Definition newRecord (w : InMemoryWallet) (isCoinbase : bool) (output : TxOut)
    (keyIdx : Z) : utxo :=
  {| value := Amount output; keyIndex := keyIdx;
     maturityHeight :=
       if isCoinbase then int64 (currentHeight w + CoinbaseMaturity (net w))
       else 0;
     pkScript := PkScript output; isLocked := false |}.

(** The test of the inner loop: the output's script contains the script
    hash of the address. *)
Definition pays (output : TxOut) (ka : Z * Address) : Prop :=
  bytes_Contains (PkScript output) (ScriptAddress ka.2) = true.

#[global] Instance pays_dec output ka : Decision (pays output ka).
Proof. unfold pays. apply _. Defined.

(** The owned addresses an output pays to. *)
Definition owners (output : TxOut) (w : InMemoryWallet) : list (Z * Address) :=
  filter (pays output) (map_to_list (addrs w)).

Definition afterLast (w : InMemoryWallet) (isCoinbase : bool) (output : TxOut)
    (op : OutPoint) (kas : list (Z * Address)) : InMemoryWallet :=
  match last kas with
  | None => w
  | Some ka => set_utxos (<[op := newRecord w isCoinbase output ka.1]> (utxos w)) w
  end.

(** [op ↦ r] was stored by [evalOutputs] for output [j] of a transaction
    with hash [txHash], seen from wallet [w]. *)
Definition storedFor (w : InMemoryWallet) (isCoinbase : bool) (txHash : bytes)
    (j : nat) (output : TxOut) (op : OutPoint) (r : utxo) : Prop :=
  op = outpointOf txHash j /\
  exists ka, ka ∈ owners output w /\ r = newRecord w isCoinbase output ka.1.

(** The undo entry [chainSyncer] journals for update [U]. *)
Definition journalled (orders : nat -> nat -> rangeOrder (Z * Address))
    (U : chainUpdate) (w : InMemoryWallet) : undoEntry :=
  (applyTxns orders 0 (filteredTxns U)
     (set_currentHeight (blockHeight U) w,
      {| utxosDestroyed := ∅; utxosCreated := [] |})).2.

(** The undo entry under construction describes how the ledger differs from
    the ledger [m0] the update started from: what it destroyed came from
    [m0], and away from the outpoints it created the ledger is [m0] minus
    what it destroyed. *)
Definition undoInv (m0 : gmap OutPoint utxo) (st : evalState) : Prop :=
  forall op,
    (forall r, utxosDestroyed st.2 !! op = Some r -> m0 !! op = Some r) /\
    (op ∉ utxosCreated st.2 ->
     utxos st.1 !! op =
       match utxosDestroyed st.2 !! op with
       | Some _ => None
       | None => m0 !! op
       end).

(** The heights still waiting in the queue. *)
Definition queuedHeights (h : harness) : list Z :=
  blockHeight <$> chainUpdates (wallet h).

(** As many signals are under way as there are updates in the queue. *)
Definition signalsMatchQueue (h : harness) : Prop :=
  inflight h = length (chainUpdates (wallet h)).

(** The outpoints a list of inputs names. *)
Definition spentBy (inputs : list InputTx) : list OutPoint :=
  PreviousOutPoint <$> inputs.

(** Exact sum of the amounts of a listing. *)
Definition sumAmounts (l : list Unspent) : Z :=
  foldr (fun x acc => UnspentAmount x + acc) 0 l.


End Wallet.

(** * Package dcrharness: helpers that build test blocks *)

(** The transaction types of package [wire], with the fields the helpers
    set. *)
Module wire.

Record OutPoint := mkOutPoint {
  Hash : bytes;
  Index : Z;                      (* uint32 *)
  Tree : Z                        (* int8 *)
}.

Record TxIn := mkTxIn {
  PreviousOutPoint : OutPoint;
  Sequence : Z;                   (* uint32 *)
  BlockHeight : Z;                (* uint32 *)
  BlockIndex : Z;                 (* uint32 *)
  SignatureScript : bytes;
  ValueIn : Z                     (* int64 *)
}.

Record TxOut := mkTxOut {
  Value : Z;                      (* int64 *)
  PkScript : bytes
}.

Record MsgTx := mkMsgTx {
  TxIns : list TxIn;
  TxOuts : list TxOut
}.

Definition MaxPrevOutIndex : Z := 2 ^ 32 - 1.
Definition MaxTxInSequenceNum : Z := 2 ^ 32 - 1.
Definition NullBlockHeight : Z := 0.
Definition NullBlockIndex : Z := 2 ^ 32 - 1.
Definition TxTreeRegular : Z := 0.

End wire.

(** The fields of [chaincfg.Params] the helpers read. *)
Module chaincfg.

Record TokenPayout := mkTokenPayout {
  PayoutAddress : string;
  PayoutAmount : Z                (* int64 *)
}.

Record Params := mkParams {
  BlockOneLedger : list TokenPayout;
  BlockOneSubsidy : Z;            (* what the method BlockOneSubsidy() returns *)
  TicketsPerBlock : Z;
  BlockTaxProportion : Z;
  OrganizationPkScript : bytes
}.

End chaincfg.

(** ** binary.LittleEndian *)

(** The conversion [byte(v)]. *)
Definition byteOf (v : Z) : byte :=
  default Byte.x00 (Byte.of_N (Z.to_N (v mod 256))).

(** [binary.LittleEndian.PutUint32] and [PutUint64], as the bytes written. *)
Definition PutUint32 (v : Z) : bytes :=
  [byteOf v; byteOf (Z.shiftr v 8); byteOf (Z.shiftr v 16); byteOf (Z.shiftr v 24)].

Definition PutUint64 (v : Z) : bytes :=
  [byteOf v; byteOf (Z.shiftr v 8); byteOf (Z.shiftr v 16); byteOf (Z.shiftr v 24);
   byteOf (Z.shiftr v 32); byteOf (Z.shiftr v 40); byteOf (Z.shiftr v 48);
   byteOf (Z.shiftr v 56)].

(** The [n] low bytes of [v], lowest first. *)
Fixpoint lowBytes (n : nat) (v : Z) : bytes :=
  match n with
  | O => []
  | S n' => byteOf v :: lowBytes n' (v / 256)
  end.

(** The number a little-endian byte string stands for. *)
Definition littleEndian (b : bytes) : Z :=
  foldr (fun x acc => Z.of_N (Byte.to_N x) + 256 * acc) 0 b.

(** ** solveBlock: the nonce ranges and the solver loop *)

Definition startNonce : Z := 0.
Definition stopNonce : Z := 2 ^ 32 - 1.      (* math.MaxUint32 *)

(** [noncesPerCore := (stopNonce - startNonce) / numCores], in uint32. *)
Definition noncesPerCore (numCores : Z) : Z :=
  uint32 (stopNonce - startNonce) / numCores.

(** [rangeStart] and [rangeStop] of the solver launched for core [i]. *)
Definition rangeStart (numCores i : Z) : Z :=
  uint32 (startNonce + uint32 (noncesPerCore numCores * i)).

Definition rangeStop (numCores i : Z) : Z :=
  if bool_decide (i = uint32 (numCores - 1)) then stopNonce
  else uint32 (uint32 (startNonce + uint32 (noncesPerCore numCores * uint32 (i + 1))) - 1).

(** What a solver sends over [results]. *)
Record sbResult := mkSbResult {
  found : bool;
  nonce : Z                       (* uint32 *)
}.

(** The loop of a solver goroutine while [quit] stays open, from nonce [i]
    on.  [solves n] tells whether the header with nonce [n] hashes to a
    value that is at most the target.  [fuel] bounds the number of
    iterations looked at; [None] means the loop is still going after that
    many. *)
Fixpoint solverLoop (solves : Z -> bool) (startNonce stopNonce : Z)
    (fuel : nat) (i : Z) : option sbResult :=
  match fuel with
  | O => None
  | S fuel' =>
      if (startNonce <=? i) && (i <=? stopNonce) then
        if solves i then Some {| found := true; nonce := i |}
        else solverLoop solves startNonce stopNonce fuel' (uint32 (i + 1))
      else Some {| found := false; nonce := 0 |}
  end.

Definition solver (solves : Z -> bool) (startNonce stopNonce : Z) (fuel : nat)
    : option sbResult :=
  solverLoop solves startNonce stopNonce fuel startNonce.

Section Helpers.

(** ** Collaborators outside the package *)

(** [dcrutil.DecodeAddress] and [txscript.PayToAddrScript]. *)
Variable DecodeAddress : string -> error + Address.
Variable PayToAddrScript : Address -> error + bytes.
(** [txscript.NewScriptBuilder().AddOp(txscript.OP_TRUE).Script()]. *)
Variable opTrueScript : error + bytes.
(** [blockchain.CalcBlockWorkSubsidy] and [CalcBlockTaxSubsidy], as functions
    of height, voters and parameters. *)
Variable CalcBlockWorkSubsidy : Z -> Z -> chaincfg.Params -> Z.
Variable CalcBlockTaxSubsidy : Z -> Z -> chaincfg.Params -> Z.
(** [txscript.GenerateProvablyPruneableOut]. *)
Variable GenerateProvablyPruneableOut : bytes -> error + bytes.

(** ** standardCoinbaseOpReturn *)

(** The twelve bytes [standardCoinbaseOpReturn] fills in. *)
Definition enData (height extraNonce : Z) : bytes :=
  PutUint32 (uint32 height) ++ PutUint64 extraNonce.

(** [standardCoinbaseOpReturn(height, extraNonce)]: the script (nil on
    error) and the error. *)
Definition standardCoinbaseOpReturn (height extraNonce : Z)
    : bytes * option error :=
  match GenerateProvablyPruneableOut (enData height extraNonce) with
  | inl err => ([], Some err)
  | inr extraNonceScript => (extraNonceScript, None)
  end.

(** ** createCoinbaseTx *)

(** The input every coinbase starts with: the zero hash and the maximal
    index as previous outpoint. *)
Definition coinbaseTxIn (coinbaseScript : bytes) : wire.TxIn :=
  {| wire.PreviousOutPoint :=
       {| wire.Hash := replicate 32 Byte.x00;
          wire.Index := wire.MaxPrevOutIndex;
          wire.Tree := wire.TxTreeRegular |};
     wire.Sequence := wire.MaxTxInSequenceNum;
     wire.BlockHeight := wire.NullBlockHeight;
     wire.BlockIndex := wire.NullBlockIndex;
     wire.SignatureScript := coinbaseScript;
     wire.ValueIn := 0 |}.

Definition setValueIn (v : Z) (txIn : wire.TxIn) : wire.TxIn :=
  {| wire.PreviousOutPoint := wire.PreviousOutPoint txIn;
     wire.Sequence := wire.Sequence txIn;
     wire.BlockHeight := wire.BlockHeight txIn;
     wire.BlockIndex := wire.BlockIndex txIn;
     wire.SignatureScript := wire.SignatureScript txIn;
     wire.ValueIn := v |}.

(** First loop of the block-one branch: decode the ledger's addresses, up
    to the first that does not decode. *)
Fixpoint decodeLedger (ledger : list chaincfg.TokenPayout)
    : error + list Address :=
  match ledger with
  | [] => inr []
  | payout :: rest =>
      match DecodeAddress (chaincfg.PayoutAddress payout) with
      | inl err => inl err
      | inr addr =>
          match decodeLedger rest with
          | inl err => inl err
          | inr addrs => inr (addr :: addrs)
          end
      end
  end.

(** Second loop of the block-one branch: one output per payout, appended
    to [outs], up to the first script that cannot be built.  [addrs] is the
    tail of the address slice from the current index on. *)
Fixpoint payLedger (ledger : list chaincfg.TokenPayout) (addrs : list Address)
    (outs : list wire.TxOut) : error + list wire.TxOut :=
  match ledger, addrs with
  | payout :: rest, addr :: addrs' =>
      match PayToAddrScript addr with
      | inl err => inl err
      | inr pks =>
          payLedger rest addrs'
            (outs ++ [{| wire.Value := chaincfg.PayoutAmount payout;
                         wire.PkScript := pks |}])
      end
  | _, _ => inr outs
  end.

(** [createCoinbaseTx(coinbaseScript, nextBlockHeight, addr, mineTo, params)].
    [addr] is [None] for the nil address; [random] is what
    [wire.RandomUint64()] returns when it is called. *)
Definition createCoinbaseTx (coinbaseScript : bytes) (nextBlockHeight : Z)
    (addr : option Address) (mineTo : list wire.TxOut)
    (params : chaincfg.Params) (random : error + Z) : error + wire.MsgTx :=
  let txIn := coinbaseTxIn coinbaseScript in
  if bool_decide (nextBlockHeight = 1)
     && negb (bool_decide (length (chaincfg.BlockOneLedger params) = 0%nat))
  then
    match decodeLedger (chaincfg.BlockOneLedger params) with
    | inl err => inl err
    | inr addrs =>
        match payLedger (chaincfg.BlockOneLedger params) addrs [] with
        | inl err => inl err
        | inr outs =>
            inr {| wire.TxIns := [setValueIn (chaincfg.BlockOneSubsidy params) txIn];
                   wire.TxOuts := outs |}
        end
    end
  else
    let voters := chaincfg.TicketsPerBlock params in
    let subsidy := CalcBlockWorkSubsidy nextBlockHeight voters params in
    let tax := CalcBlockTaxSubsidy nextBlockHeight voters params in
    let taxOut : error + wire.TxOut :=
      if bool_decide (0 < chaincfg.BlockTaxProportion params)
      then inr {| wire.Value := tax;
                  wire.PkScript := chaincfg.OrganizationPkScript params |}
      else match opTrueScript with
           | inl err => inl err
           | inr trueScript => inr {| wire.Value := tax; wire.PkScript := trueScript |}
           end in
    match taxOut with
    | inl err => inl err
    | inr out0 =>
        match random with
        | inl err => inl err
        | inr rnd =>
            let height := nextBlockHeight in
            (* the error of standardCoinbaseOpReturn is not looked at *)
            let opReturnPkScript := (standardCoinbaseOpReturn height rnd).1 in
            let out1 := {| wire.Value := 0; wire.PkScript := opReturnPkScript |} in
            let valueIn := int64 (subsidy + tax) in
            let pks : error + bytes :=
              match addr with
              | Some a => PayToAddrScript a
              | None => opTrueScript
              end in
            match pks with
            | inl err => inl err
            | inr pksSubsidy =>
                inr {| wire.TxIns := [setValueIn valueIn txIn];
                       wire.TxOuts :=
                         [out0; out1;
                          {| wire.Value := subsidy; wire.PkScript := pksSubsidy |}] |}
            end
        end
    end.

(** ** Vocabulary of the statements *)

(** Sum of the values of a list of outputs. *)
Definition sumValues (outs : list wire.TxOut) : Z :=
  foldr (fun out acc => wire.Value out + acc) 0 outs.

(** [out] is the output the block-one branch builds for [payout]: the
    payout's amount, and the script of the payout's decoded address. *)
Definition ledgerOutput (payout : chaincfg.TokenPayout) (out : wire.TxOut) : Prop :=
  wire.Value out = chaincfg.PayoutAmount payout /\
  exists addr,
    DecodeAddress (chaincfg.PayoutAddress payout) = inr addr /\
    PayToAddrScript addr = inr (wire.PkScript out).

End Helpers.

(** * A simulated key chain and node, and worked examples *)

(** Keys are derivation paths; the child at index 3 does not exist (as
    [hdkeychain] reports for the rare invalid child). *)
Definition simChild (k : list Z) (i : Z) : error + list Z :=
  if decide (i = 3) then inl "invalid child"%string else inr (k ++ [i]).

Definition simECPrivKey (k : list Z) : error + Z :=
  match last k with
  | Some i => inr i
  | None => inl "not a child key"%string
  end.

Definition simScriptHash (i : Z) : bytes :=
  [Byte.xa0; default Byte.x00 (Byte.of_N (Z.to_N (i mod 256)))].

Definition simKeyToAddr (priv : Z) (_ : Network) : error + Address :=
  inr {| ScriptAddress := simScriptHash priv |}.

(** The node keeps the list of addresses in its transaction filter. *)
Definition simLoadTxFilter (reload : bool) (addresses : list Address)
    (node : list Address) : option error * list Address :=
  (None, if reload then addresses else node ++ addresses).

(** Headers of four bytes: the height, little endian. *)
Definition simFromBytes (header : bytes) : error + BlockHeader :=
  match header with
  | [b0; b1; b2; b3] =>
      inr {| Height := Z.of_N (Byte.to_N b0) + 2 ^ 8 * Z.of_N (Byte.to_N b1)
                       + 2 ^ 16 * Z.of_N (Byte.to_N b2)
                       + 2 ^ 24 * Z.of_N (Byte.to_N b3) |}
  | _ => inl "short header"%string
  end.

(** Transactions: the bytes are the hash; no inputs, no outputs. *)
Definition simNewTxFromBytes (txBytes : bytes) : error + Tx :=
  match txBytes with
  | [] => inl "empty transaction"%string
  | _ => inr {| MsgTx := {| TxHash := txBytes; TxOut_ := []; TxIn_ := [] |} |}
  end.

Definition nullOutPoint : OutPoint := {| Hash := []; Index := 2 ^ 32 - 1 |}.

(** A coinbase has one input, which spends the null outpoint. *)
Definition simIsCoinBaseTx (mtx : MessageTx) : bool :=
  match TxIn_ mtx with
  | [txIn] => bool_decide (PreviousOutPoint txIn = nullOutPoint)
  | _ => false
  end.

Definition simAddr (i : Z) : Address := {| ScriptAddress := simScriptHash i |}.

(** A wallet that owns the addresses of indices 0 and 1, on a network with a
    coinbase maturity of 16 blocks. *)
Definition simWallet : @InMemoryWallet (list Z) :=
  {| hdRoot := []; hdIndex := 2; currentHeight := 0;
     addrs := <[1 := simAddr 1]> {[0 := simAddr 0]};
     utxos := ∅; reorgJournal := ∅; chainUpdates := [];
     net := {| CoinbaseMaturity := 16 |};
     NewTxFromBytes := simNewTxFromBytes; IsCoinBaseTx := simIsCoinBaseTx |}.

(** A new wallet: no address issued yet. *)
Definition simNewWallet : @InMemoryWallet (list Z) :=
  set_addrs ∅ (set_hdIndex 0 simWallet).

(** The header of the block at height 100. *)
Definition header100 : bytes := [Byte.x64; Byte.x00; Byte.x00; Byte.x00].

(** A coinbase paying 500000000 atoms to address 0. *)
Definition coinbaseTx : Tx :=
  {| MsgTx := {| TxHash := [Byte.xc0];
                 TxOut_ := [{| PkScript := Byte.x76 :: simScriptHash 0 ++ [Byte.xac];
                               Amount := 500000000 |}];
                 TxIn_ := [{| PreviousOutPoint := nullOutPoint |}] |} |}.

Definition coinbaseOutPoint : OutPoint := {| Hash := [Byte.xc0]; Index := 0 |}.

Definition block100 : chainUpdate :=
  {| blockHeight := 100; filteredTxns := [coinbaseTx] |}.

Definition simOrders : nat -> nat -> rangeOrder (Z * Address) :=
  fun _ _ => inOrder.

(** The wallet after block 100. *)
Definition simWallet100 : @InMemoryWallet (list Z) :=
  applyUpdate simOrders block100 simWallet.

Definition coinbaseRecord : utxo :=
  {| value := 500000000; keyIndex := 0; maturityHeight := 116;
     pkScript := Byte.x76 :: simScriptHash 0 ++ [Byte.xac]; isLocked := false |}.

(** Block 101 spends the coinbase of block 100 and pays 499990000 atoms to
    address 1. *)
Definition header101 : bytes := [Byte.x65; Byte.x00; Byte.x00; Byte.x00].

Definition spendTx : Tx :=
  {| MsgTx := {| TxHash := [Byte.xd1];
                 TxOut_ := [{| PkScript := Byte.x76 :: simScriptHash 1 ++ [Byte.xac];
                               Amount := 499990000 |}];
                 TxIn_ := [{| PreviousOutPoint := coinbaseOutPoint |}] |} |}.

Definition spendOutPoint : OutPoint := {| Hash := [Byte.xd1]; Index := 0 |}.

Definition block101 : chainUpdate :=
  {| blockHeight := 101; filteredTxns := [spendTx] |}.

(** The wallet at height 99, about to receive block 100. *)
Definition simWallet99 : @InMemoryWallet (list Z) :=
  set_currentHeight 99 simWallet.

(** The wallet 16 blocks after block 100, with the coinbase record locked
    or not. *)
Definition lockedRecord : utxo :=
  {| value := 500000000; keyIndex := 0; maturityHeight := 116;
     pkScript := Byte.x76 :: simScriptHash 0 ++ [Byte.xac]; isLocked := true |}.

Definition simWallet116 : @InMemoryWallet (list Z) :=
  set_currentHeight 116 simWallet100.

Definition simWallet116_locked : @InMemoryWallet (list Z) :=
  set_utxos (<[coinbaseOutPoint := lockedRecord]> (utxos simWallet116)) simWallet116.

(** A block in which the second transaction spends the output of the
    first. *)
Definition chainedOutPoint : OutPoint := {| Hash := [Byte.xa1]; Index := 0 |}.

Definition chainedBlock : chainUpdate :=
  {| blockHeight := 100;
     filteredTxns :=
       [ {| MsgTx := {| TxHash := [Byte.xa1];
                        TxOut_ := [{| PkScript := simScriptHash 0; Amount := 5 |}];
                        TxIn_ := [] |} |};
         {| MsgTx := {| TxHash := [Byte.xa2];
                        TxOut_ := [];
                        TxIn_ := [{| PreviousOutPoint := chainedOutPoint |}] |} |} ] |}.

(** A wallet whose index counter has reached the last uint32. *)
Definition simWalletLastIndex : @InMemoryWallet (list Z) :=
  set_hdIndex (2 ^ 32 - 1) simWallet.

(** An output whose script contains the script hashes of addresses 0 and 1. *)
Definition sharedOutput : TxOut :=
  {| PkScript := simScriptHash 0 ++ simScriptHash 1; Amount := 7 |}.

Definition plainOutput : TxOut :=
  {| PkScript := [Byte.x6a]; Amount := 0 |}.

(** ** Simulated collaborators of the block helpers *)

(** An address string decodes to the address numbered by its length; the
    empty string is no address. *)
Definition simDecodeAddress (s : string) : error + Address :=
  match s with
  | EmptyString => inl "empty address"%string
  | _ => inr (simAddr (Z.of_nat (String.length s)))
  end.

Definition simPayToAddrScript (a : Address) : error + bytes :=
  inr (Byte.x76 :: ScriptAddress a ++ [Byte.xac]).

Definition simOpTrueScript : error + bytes := inr [Byte.x51].

Definition simCalcBlockWorkSubsidy (height voters : Z) (_ : chaincfg.Params) : Z :=
  60 * voters.

Definition simCalcBlockTaxSubsidy (height voters : Z) (_ : chaincfg.Params) : Z :=
  10 * voters.

Definition simGenerateProvablyPruneableOut (data : bytes) : error + bytes :=
  if bool_decide (length data <= 256)%nat then inr (Byte.x6a :: data)
  else inl "data too long"%string.

(** Parameters with a block-one ledger of two payouts and a tax. *)
Definition simParams : chaincfg.Params :=
  {| chaincfg.BlockOneLedger :=
       [ {| chaincfg.PayoutAddress := "Dsa"; chaincfg.PayoutAmount := 5 |};
         {| chaincfg.PayoutAddress := "Dsbb"; chaincfg.PayoutAmount := 7 |} ];
     chaincfg.BlockOneSubsidy := 12;
     chaincfg.TicketsPerBlock := 5;
     chaincfg.BlockTaxProportion := 1;
     chaincfg.OrganizationPkScript := [Byte.x52] |}.

(** A target that only nonce 1005 meets. *)
Definition simSolves (n : Z) : bool := n =? 1005.

(** * Verification *)

Section WalletFacts.

#[local] Set Default Proof Using "Type".

Context {ExtendedKey PrivateKey Node : Type}.
Variable Child : ExtendedKey -> Z -> error + ExtendedKey.
Variable ECPrivKey : ExtendedKey -> error + PrivateKey.
Variable keyToAddr : PrivateKey -> Network -> error + Address.
Variable LoadTxFilter : bool -> list Address -> Node -> option error * Node.
Variable FromBytes : bytes -> error + BlockHeader.

#[local] Abbreviation InMemoryWallet := (@InMemoryWallet ExtendedKey).
#[local] Abbreviation evalState := (@evalState ExtendedKey).
#[local] Abbreviation harness := (@harness ExtendedKey).

Implicit Types (w : InMemoryWallet) (st : evalState) (h : harness).

(** ** What the eval loops leave alone *)

Lemma sameButUtxos_refl w : sameButUtxos w w.
Proof. by destruct w. Qed.

Lemma sameButUtxos_trans w1 w2 w3 :
  sameButUtxos w1 w2 -> sameButUtxos w2 w3 -> sameButUtxos w1 w3.
Proof. unfold sameButUtxos. intros H12 H23. rewrite H23, H12. by destruct w1. Qed.

Lemma sameButUtxos_set m w : sameButUtxos w (set_utxos m w).
Proof. by destruct w. Qed.

Lemma sameButUtxos_fields w w' :
  sameButUtxos w w' ->
  currentHeight w' = currentHeight w /\ addrs w' = addrs w /\
  reorgJournal w' = reorgJournal w /\ chainUpdates w' = chainUpdates w /\
  net w' = net w /\ hdIndex w' = hdIndex w /\
  IsCoinBaseTx w' = IsCoinBaseTx w.
Proof. intros ->. by destruct w. Qed.

Lemma evalOutput_addr_same i output txHash isCoinbase st ka :
  sameButUtxos st.1 (evalOutput_addr i output txHash isCoinbase st ka).1.
Proof.
  unfold evalOutput_addr.
  destruct (negb _); simpl; [apply sameButUtxos_refl | apply sameButUtxos_set].
Qed.

Lemma foldl_evalOutput_addr_same i output txHash isCoinbase l st :
  sameButUtxos st.1 (foldl (evalOutput_addr i output txHash isCoinbase) st l).1.
Proof.
  revert st. induction l as [|ka l IH]; intros st; simpl.
  - apply sameButUtxos_refl.
  - eapply sameButUtxos_trans; [apply evalOutput_addr_same | apply IH].
Qed.

Lemma evalOutput_same o i output txHash isCoinbase st :
  sameButUtxos st.1 (evalOutput o i output txHash isCoinbase st).1.
Proof. apply foldl_evalOutput_addr_same. Qed.

Lemma evalOutputs_from_same orders i outputs txHash isCoinbase st :
  sameButUtxos st.1 (evalOutputs_from orders i outputs txHash isCoinbase st).1.
Proof.
  revert i st. induction outputs as [|output rest IH]; intros i st; simpl.
  - apply sameButUtxos_refl.
  - eapply sameButUtxos_trans; [apply evalOutput_same | apply IH].
Qed.

Lemma evalInput_same st txIn : sameButUtxos st.1 (evalInput st txIn).1.
Proof.
  unfold evalInput. destruct (utxos st.1 !! _); simpl;
    [apply sameButUtxos_set | apply sameButUtxos_refl].
Qed.

Lemma evalInputs_same inputs st : sameButUtxos st.1 (evalInputs inputs st).1.
Proof.
  unfold evalInputs. revert st. induction inputs as [|txIn rest IH]; intros st; simpl.
  - apply sameButUtxos_refl.
  - eapply sameButUtxos_trans; [apply evalInput_same | apply IH].
Qed.

Lemma applyTxns_same orders t txns st :
  sameButUtxos st.1 (applyTxns orders t txns st).1.
Proof.
  revert t st. induction txns as [|tx rest IH]; intros t st; simpl.
  - apply sameButUtxos_refl.
  - eapply sameButUtxos_trans; [|apply IH].
    eapply sameButUtxos_trans; [apply evalOutputs_from_same | apply evalInputs_same].
Qed.

(** ** C6: the height of an update is taken as it comes *)

(** C6.  Whatever the wallet's height was, the iteration of [chainSyncer]
    that pops update [U] returns normally and leaves [currentHeight] equal to
    [U]'s height, with [U]'s undo entry journalled under that height: no
    comparison with the previous height takes place. *)
Theorem chainSyncer_height_unchecked
    (orders : nat -> nat -> rangeOrder (Z * Address))
    (U : chainUpdate) (rest : list chainUpdate) (w : InMemoryWallet) :
  exists w',
    chainSyncer_iter orders chainUpdateSignal (set_chainUpdates (U :: rest) w)
      = Returns (true, w') /\
    w' = applyUpdate orders U (set_chainUpdates rest w) /\
    currentHeight w' = blockHeight U /\
    is_Some (reorgJournal w' !! blockHeight U) /\
    chainUpdates w' = rest.
Proof.
  eexists. split; [reflexivity|]. split; [reflexivity|].
  unfold applyUpdate.
  pose proof (applyTxns_same orders 0 (filteredTxns U)
    (set_currentHeight (blockHeight U) (set_chainUpdates rest w),
     {| utxosDestroyed := ∅; utxosCreated := [] |})) as Hs.
  apply sameButUtxos_fields in Hs.
  destruct Hs as (Hh & _ & _ & Hq & _).
  set (st := applyTxns _ _ _ _) in *.
  destruct st as [w1 undo]. simpl in *.
  split; [exact Hh|]. split; [|exact Hq].
  rewrite lookup_insert_eq. by eexists.
Qed.

(** ** C8: inputs that spend nothing the wallet tracks *)

Lemma evalInputs_app l1 l2 st :
  evalInputs (l1 ++ l2) st = evalInputs l2 (evalInputs l1 st).
Proof. unfold evalInputs. apply foldl_app. Qed.

(** C8.  An input whose previous outpoint is not in the ledger when the loop
    reaches it changes nothing: the state after it is the state before it
    (same Output Record set, same destroyed map), and the whole run of
    [evalInputs] is the run without that input. *)
Theorem evalInputs_skips_unknown
    (pre post : list InputTx) (txIn : InputTx) (st : evalState) :
  utxos (evalInputs pre st).1 !! PreviousOutPoint txIn = None ->
  evalInputs (pre ++ [txIn]) st = evalInputs pre st /\
  evalInputs (pre ++ txIn :: post) st = evalInputs (pre ++ post) st.
Proof.
  intros Hnone.
  assert (Hone : evalInput (evalInputs pre st) txIn = evalInputs pre st).
  { unfold evalInput. by rewrite Hnone. }
  split.
  - rewrite evalInputs_app. simpl. exact Hone.
  - rewrite !evalInputs_app. simpl. by rewrite Hone.
Qed.

(** ** C2: unwinding a height that was never applied *)

(** C2.  When the journal has no entry for the height of the header,
    [UnwindBlock] does not return: it panics on the nil undo entry. *)
Theorem UnwindBlock_unknown_height_panics
    (o : rangeOrder (OutPoint * utxo)) (header : bytes) (hdr : BlockHeader)
    (m : InMemoryWallet) :
  FromBytes header = inr hdr ->
  reorgJournal m !! uint32 (Height hdr) = None ->
  UnwindBlock FromBytes o header m = Panics NilDereference /\
  forall m', UnwindBlock FromBytes o header m <> Returns m'.
Proof.
  intros Hdec Hnone. unfold UnwindBlock. rewrite Hdec, Hnone. by split.
Qed.

(** ** C9: a failed issuance leaves the wallet alone *)

(** C9.  If a step of the issuance fails, [NewAddress] returns that error
    and the wallet it leaves is the wallet it found: no new entry in the
    address table, the same next index, and a second attempt starts from
    the same index. *)
Theorem NewAddress_failure_atomic
    (w : InMemoryWallet) (node : Node) (err : error) :
  issueStepFails Child ECPrivKey keyToAddr LoadTxFilter w node err ->
  exists node',
    NewAddress Child ECPrivKey keyToAddr LoadTxFilter w node = (inl err, w, node') /\
    addrs (NewAddress Child ECPrivKey keyToAddr LoadTxFilter w node).1.2 = addrs w /\
    hdIndex (NewAddress Child ECPrivKey keyToAddr LoadTxFilter w node).1.2 = hdIndex w.
Proof.
  unfold issueStepFails, NewAddress, newAddress.
  intros [H | (ck & -> & [H | (pk & -> & [H | (addr & -> & H)])])].
  - rewrite H. by exists node.
  - rewrite H. by exists node.
  - rewrite H. by exists node.
  - destruct (LoadTxFilter false [addr] node) as [oe node1]. simpl in H.
    subst oe. by exists node1.
Qed.

(** ** Reading the ledger: balance and listing *)

Lemma int64_add_l a b : int64 (int64 a + b) = int64 (a + b).
Proof.
  unfold int64. f_equal.
  replace ((a + 2 ^ 63) mod 2 ^ 64 - 2 ^ 63 + b + 2 ^ 63)
    with ((a + 2 ^ 63) mod 2 ^ 64 + b) by lia.
  rewrite Z.add_mod_idemp_l by lia. f_equal. lia.
Qed.

Lemma int64_id z : in_int64 z -> int64 z = z.
Proof. unfold in_int64, int64. intros Hz. rewrite Z.mod_small; lia. Qed.

Lemma int64_idemp z : int64 (int64 z) = int64 z.
Proof. rewrite <- (Z.add_0_r (int64 z)) at 1. rewrite int64_add_l. f_equal. lia. Qed.

Lemma total_perm w l1 l2 : l1 ≡ₚ l2 -> total w l1 = total w l2.
Proof. induction 1; simpl; lia. Qed.

Lemma foldl_addToBalance w l b :
  int64 b = b -> foldl (addToBalance w) b l = int64 (b + total w l).
Proof.
  revert b. induction l as [|e l IH]; intros b Hb; simpl.
  - by rewrite Z.add_0_r, Hb.
  - unfold addToBalance at 2, contribution. destruct (skipped w e.2).
    + rewrite IH by done. f_equal.
    + rewrite IH by apply int64_idemp. rewrite int64_add_l. f_equal. lia.
Qed.

Lemma balanceOf_total o account w :
  balanceOf o account w = int64 (total w (map_to_list (utxos w))).
Proof.
  unfold balanceOf, GetBalance, range. simpl.
  rewrite foldl_addToBalance by done. simpl.
  f_equal. apply total_perm, permute_perm.
Qed.

Lemma foldl_collectUnspent w l acc :
  foldl (collectUnspent w) acc l = acc ++ omap (selected w) l.
Proof.
  revert acc. induction l as [|e l IH]; intros acc; simpl.
  - by rewrite app_nil_r.
  - rewrite IH. unfold collectUnspent, selected. destruct (skipped w e.2).
    + done.
    + by rewrite <- app_assoc.
Qed.

Lemma listingOf_perm o w :
  listingOf o w ≡ₚ omap (selected w) (map_to_list (utxos w)).
Proof.
  unfold listingOf, ListUnspent, range. simpl.
  rewrite foldl_collectUnspent. simpl. by rewrite permute_perm.
Qed.

Lemma map_to_list_without w op u :
  utxos w !! op = Some u ->
  map_to_list (utxos w) ≡ₚ (op, u) :: map_to_list (utxos (without op w)).
Proof. intros Hop. simpl. symmetry. by apply map_to_list_delete. Qed.

(** A record the loops skip counts for nothing. *)
Lemma skipped_record_excluded o o' account w op u :
  utxos w !! op = Some u -> skipped w u = true ->
  balanceOf o account w = balanceOf o' account (without op w) /\
  listingOf o w ≡ₚ listingOf o' (without op w).
Proof.
  intros Hop Hskip. split.
  - rewrite !balanceOf_total.
    rewrite (total_perm _ _ _ (map_to_list_without w op u Hop)). simpl.
    unfold contribution at 1. simpl. rewrite Hskip. f_equal.
  - rewrite !listingOf_perm.
    rewrite (map_to_list_without w op u Hop). simpl.
    unfold selected at 1. simpl. by rewrite Hskip.
Qed.

(** A record the loops do not skip counts with its value. *)
Lemma kept_record_included o o' account w op u :
  utxos w !! op = Some u -> skipped w u = false ->
  balanceOf o account w
    = int64 (balanceOf o' account (without op w) + value u) /\
  listingOf o w ≡ₚ
    {| Account := EmptyString; UnspentAmount := value u |}
      :: listingOf o' (without op w).
Proof.
  intros Hop Hskip. split.
  - rewrite !balanceOf_total.
    rewrite (total_perm _ _ _ (map_to_list_without w op u Hop)). simpl.
    unfold contribution at 1. simpl. rewrite Hskip.
    rewrite int64_add_l. f_equal.
    change (total (without op w)) with (total w). lia.
  - rewrite !listingOf_perm.
    rewrite (map_to_list_without w op u Hop). simpl.
    unfold selected at 1. simpl. by rewrite Hskip.
Qed.

(** ** Unlocking *)

Lemma unlockOutput_same w input : sameButUtxos w (unlockOutput w input).
Proof.
  unfold unlockOutput. destruct (utxos w !! _);
    [apply sameButUtxos_set | apply sameButUtxos_refl].
Qed.

Lemma foldl_unlockOutput_same inputs w :
  sameButUtxos w (foldl unlockOutput w inputs).
Proof.
  revert w. induction inputs as [|input rest IH]; intros w; simpl.
  - apply sameButUtxos_refl.
  - eapply sameButUtxos_trans; [apply unlockOutput_same | apply IH].
Qed.

Lemma unlockOutput_lookup w input k :
  utxos (unlockOutput w input) !! k =
  if decide (PreviousOutPoint input = k) then unlock <$> utxos w !! k
  else utxos w !! k.
Proof.
  unfold unlockOutput. case_decide as Hk.
  - subst k. destruct (utxos w !! PreviousOutPoint input) as [u|] eqn:E; simpl.
    + by rewrite lookup_insert_eq.
    + by rewrite E.
  - destruct (utxos w !! PreviousOutPoint input) as [u|] eqn:E; simpl; [|done].
    by rewrite lookup_insert_ne.
Qed.

(** After [UnlockOutputs], a record named by one of the inputs is unlocked
    and otherwise as it was. *)
Lemma UnlockOutputs_lookup inputs w k u :
  k ∈ PreviousOutPoint <$> inputs ->
  utxos w !! k = Some u ->
  utxos (UnlockOutputs inputs w).2 !! k = Some (unlock u).
Proof.
  unfold UnlockOutputs. simpl.
  assert (Hstay : forall l w', utxos w' !! k = Some (unlock u) ->
            utxos (foldl unlockOutput w' l) !! k = Some (unlock u)).
  { induction l as [|i l IH]; intros w' Hw'; simpl; [done|].
    apply IH. rewrite unlockOutput_lookup. case_decide; by rewrite Hw'. }
  revert w. induction inputs as [|input rest IH]; intros w Hin Hk; simpl.
  - by apply elem_of_nil in Hin.
  - rewrite fmap_cons in Hin.
    destruct (decide (PreviousOutPoint input = k)) as [Heq|Hne].
    + apply Hstay. rewrite unlockOutput_lookup.
      rewrite decide_True by done. by rewrite Hk.
    + apply elem_of_cons in Hin as [Hin|Hin]; [congruence|].
      apply IH; [done|]. rewrite unlockOutput_lookup.
      by rewrite decide_False.
Qed.

(** ** What evalOutputs does for one output *)

Lemma scan_spec i output txHash isCoinbase l st :
  foldl (evalOutput_addr i output txHash isCoinbase) st l =
  (afterLast st.1 isCoinbase output (outpointOf txHash i) (filter (pays output) l),
   {| utxosDestroyed := utxosDestroyed st.2;
      utxosCreated := utxosCreated st.2
        ++ replicate (length (filter (pays output) l)) (outpointOf txHash i) |}).
Proof.
  revert st. induction l as [|ka l IH]; intros [w undo].
  - simpl. unfold afterLast. simpl. rewrite app_nil_r. by destruct undo.
  - simpl foldl. rewrite IH. clear IH.
    unfold evalOutput_addr. fold (outpointOf txHash i).
    destruct (decide (pays output ka)) as [Hp|Hp].
    + rewrite filter_cons_True by done.
      unfold pays in Hp. rewrite Hp. simpl.
      f_equal.
      * unfold afterLast. rewrite last_cons.
        destruct (last (filter (pays output) l)) as [kb|]; simpl; [|done].
        unfold newRecord, set_utxos. simpl. by rewrite insert_insert_eq.
      * f_equal. by rewrite <- app_assoc.
    + rewrite filter_cons_False by done.
      unfold pays in Hp. apply not_true_is_false in Hp. rewrite Hp. done.
Qed.

(** The effect of the inner loop, whatever the visiting order: the record of
    the matching address visited last is stored, and the outpoint is
    appended once per matching address. *)
Lemma evalOutput_spec o i output txHash isCoinbase st :
  exists kas,
    kas ≡ₚ owners output st.1 /\
    evalOutput o i output txHash isCoinbase st =
    (afterLast st.1 isCoinbase output (outpointOf txHash i) kas,
     {| utxosDestroyed := utxosDestroyed st.2;
        utxosCreated := utxosCreated st.2
          ++ replicate (length kas) (outpointOf txHash i) |}).
Proof.
  exists (filter (pays output) (range o (addrs st.1))). split.
  - unfold owners, range. by rewrite permute_perm.
  - apply scan_spec.
Qed.

Lemma afterLast_same w isCoinbase output op kas :
  sameButUtxos w (afterLast w isCoinbase output op kas).
Proof.
  unfold afterLast. destruct (last kas);
    [apply sameButUtxos_set | apply sameButUtxos_refl].
Qed.

Lemma afterLast_lookup w isCoinbase output op kas op' :
  utxos (afterLast w isCoinbase output op kas) !! op' =
  match last kas with
  | Some ka => if decide (op = op')
               then Some (newRecord w isCoinbase output ka.1)
               else utxos w !! op'
  | None => utxos w !! op'
  end.
Proof.
  unfold afterLast. destruct (last kas) as [ka|]; simpl; [|done].
  case_decide as Hop.
  - subst. by rewrite lookup_insert_eq.
  - by rewrite lookup_insert_ne.
Qed.

Lemma last_elem_of {A} (l : list A) x : last l = Some x -> x ∈ l.
Proof.
  induction l as [|y l IH]; [done|].
  rewrite last_cons. destruct (last l) as [z|].
  - intros [= ->]. right. by apply IH.
  - intros [= ->]. left.
Qed.

Lemma last_None_nil {A} (l : list A) : last l = None -> l = [].
Proof.
  destruct l as [|y l]; [done|]. rewrite last_cons. by destruct (last l).
Qed.

Lemma newRecord_same w w' isCoinbase output keyIdx :
  sameButUtxos w w' ->
  newRecord w' isCoinbase output keyIdx = newRecord w isCoinbase output keyIdx.
Proof. intros ->. done. Qed.

Lemma owners_same w w' output :
  sameButUtxos w w' -> owners output w' = owners output w.
Proof. intros ->. done. Qed.

(** ** Where the records of the ledger come from *)

Lemma storedFor_same w w' isCoinbase txHash j output op r :
  sameButUtxos w w' ->
  storedFor w' isCoinbase txHash j output op r ->
  storedFor w isCoinbase txHash j output op r.
Proof.
  intros Hs (-> & ka & Hka & ->). split; [done|]. exists ka.
  by rewrite <- (owners_same _ _ _ Hs), <- (newRecord_same _ _ _ _ _ Hs).
Qed.

Lemma evalOutput_lookup o i output txHash isCoinbase st op r :
  utxos (evalOutput o i output txHash isCoinbase st).1 !! op = Some r ->
  utxos st.1 !! op = Some r \/
  storedFor st.1 isCoinbase txHash i output op r.
Proof.
  destruct (evalOutput_spec o i output txHash isCoinbase st) as (kas & Hkas & ->).
  simpl. rewrite afterLast_lookup.
  destruct (last kas) as [ka|] eqn:Hlast; [|by left].
  case_decide as Hop; [|by left].
  intros [= <-]. right. split; [done|]. exists ka. split; [|done].
  rewrite <- Hkas. by apply last_elem_of.
Qed.

Lemma evalOutputs_from_lookup orders i outputs txHash isCoinbase st op r :
  utxos (evalOutputs_from orders i outputs txHash isCoinbase st).1 !! op = Some r ->
  utxos st.1 !! op = Some r \/
  exists j output, outputs !! j = Some output /\
    storedFor st.1 isCoinbase txHash (i + j) output op r.
Proof.
  revert i st. induction outputs as [|output rest IH]; intros i st; simpl.
  - by left.
  - intros H. apply IH in H as [H | (j & out & Hj & Hst)].
    + apply evalOutput_lookup in H as [H|H]; [by left|].
      right. exists 0%nat, output. split; [done|]. by rewrite Nat.add_0_r.
    + right. exists (S j), out. split; [done|].
      replace (i + S j)%nat with (S i + j)%nat by lia.
      eapply storedFor_same; [apply evalOutput_same | exact Hst].
Qed.

Lemma evalInput_lookup st txIn op r :
  utxos (evalInput st txIn).1 !! op = Some r -> utxos st.1 !! op = Some r.
Proof.
  unfold evalInput. destruct (utxos st.1 !! PreviousOutPoint txIn); simpl; [|done].
  intros H. apply lookup_delete_Some in H. by destruct H.
Qed.

Lemma evalInputs_lookup inputs st op r :
  utxos (evalInputs inputs st).1 !! op = Some r -> utxos st.1 !! op = Some r.
Proof.
  unfold evalInputs. revert st.
  induction inputs as [|txIn rest IH]; intros st; simpl; [done|].
  intros H. apply IH in H. by apply evalInput_lookup in H.
Qed.

Lemma applyTxns_lookup orders t txns st op r :
  utxos (applyTxns orders t txns st).1 !! op = Some r ->
  utxos st.1 !! op = Some r \/
  exists tx j output, tx ∈ txns /\ TxOut_ (MsgTx tx) !! j = Some output /\
    storedFor st.1 (IsCoinBaseTx st.1 (MsgTx tx)) (TxHash (MsgTx tx)) j output op r.
Proof.
  revert t st. induction txns as [|tx rest IH]; intros t st; simpl.
  - by left.
  - intros H.
    pose proof (evalOutputs_from_same (orders t) 0 (TxOut_ (MsgTx tx))
      (TxHash (MsgTx tx)) (IsCoinBaseTx st.1 (MsgTx tx)) st) as Hs1.
    set (st1 := evalOutputs _ _ _ _ st) in *.
    pose proof (evalInputs_same (TxIn_ (MsgTx tx)) st1) as Hs2.
    set (st2 := evalInputs _ st1) in *.
    assert (Hs : sameButUtxos st.1 st2.1) by (eapply sameButUtxos_trans; eauto).
    apply IH in H as [H | (tx' & j & out & Hin & Hj & Hst)].
    + apply evalInputs_lookup in H.
      apply evalOutputs_from_lookup in H as [H | (j & out & Hj & Hst)]; [by left|].
      right. exists tx, j, out. split; [left|]. split; [done|]. exact Hst.
    + right. exists tx', j, out. split; [by right|]. split; [done|].
      apply sameButUtxos_fields in Hs as Hf.
      destruct Hf as (_ & _ & _ & _ & _ & _ & Hcb). rewrite Hcb in Hst.
      eapply storedFor_same; [exact Hs | exact Hst].
Qed.

(** ** C10: an output that pays several owned addresses *)

Lemma evalOutputs_from_app orders i l1 l2 txHash isCoinbase st :
  evalOutputs_from orders i (l1 ++ l2) txHash isCoinbase st =
  evalOutputs_from orders (i + length l1) l2 txHash isCoinbase
    (evalOutputs_from orders i l1 txHash isCoinbase st).
Proof.
  revert i st. induction l1 as [|x l1 IH]; intros i st; simpl.
  - by rewrite Nat.add_0_r.
  - rewrite IH. f_equal. lia.
Qed.

Lemma evalOutputs_from_destroyed orders i outputs txHash isCoinbase st :
  utxosDestroyed (evalOutputs_from orders i outputs txHash isCoinbase st).2
  = utxosDestroyed st.2.
Proof.
  revert i st. induction outputs as [|output rest IH]; intros i st; simpl; [done|].
  rewrite IH.
  by destruct (evalOutput_spec (orders i) i output txHash isCoinbase st)
    as (kas & _ & ->).
Qed.

(** Outputs at other indices leave an outpoint alone: its record stays and
    it is not appended to the created list. *)
Lemma evalOutputs_from_others orders i outputs txHash isCoinbase st op' :
  (forall j, (i <= j < i + length outputs)%nat -> outpointOf txHash j <> op') ->
  utxos (evalOutputs_from orders i outputs txHash isCoinbase st).1 !! op'
    = utxos st.1 !! op' /\
  exists suffix,
    utxosCreated (evalOutputs_from orders i outputs txHash isCoinbase st).2
      = utxosCreated st.2 ++ suffix /\ op' ∉ suffix.
Proof.
  revert i st. induction outputs as [|output rest IH]; intros i st Hne; simpl.
  - split; [done|]. exists []. rewrite app_nil_r. split; [done|]. apply not_elem_of_nil.
  - destruct (evalOutput_spec (orders i) i output txHash isCoinbase st)
      as (kas & _ & Hst).
    destruct (IH (S i) (evalOutput (orders i) i output txHash isCoinbase st))
      as (Hlk & suffix & Hcr & Hnin).
    { intros j Hj. apply Hne. simpl. lia. }
    assert (Hi : outpointOf txHash i <> op') by (apply Hne; simpl; lia).
    split.
    + rewrite Hlk, Hst. simpl. rewrite afterLast_lookup.
      destruct (last kas); [|done]. by rewrite decide_False.
    + exists (replicate (length kas) (outpointOf txHash i) ++ suffix). split.
      * rewrite Hcr, Hst. simpl. by rewrite <- app_assoc.
      * rewrite elem_of_app. intros [Hin|Hin]; [|done].
        apply elem_of_replicate in Hin. by destruct Hin.
Qed.

Lemma outpointOf_inj txHash i j :
  Z.of_nat i < 2 ^ 32 -> Z.of_nat j < 2 ^ 32 ->
  outpointOf txHash i = outpointOf txHash j -> i = j.
Proof.
  unfold outpointOf, uint32. intros Hi Hj [= H].
  rewrite !Z.mod_small in H by lia. lia.
Qed.

(** C10.  Take output number [length outs1] of a transaction, paying [k > 1]
    owned addresses.  After [evalOutputs] the ledger holds one record at the
    output's outpoint, owned by the key index of one of the [k] addresses,
    while the created list of the undo entry has grown by [k] copies of that
    outpoint, in a row. *)
Theorem evalOutputs_multiple_owners
    (orders : nat -> rangeOrder (Z * Address))
    (outs1 : list TxOut) (output : TxOut) (outs2 : list TxOut)
    (txHash : bytes) (isCoinbase : bool) (st : evalState) :
  let outputs := outs1 ++ output :: outs2 in
  let op := outpointOf txHash (length outs1) in
  let k := length (owners output st.1) in
  let st' := evalOutputs orders outputs txHash isCoinbase st in
  Z.of_nat (length outputs) <= 2 ^ 32 ->
  (1 < k)%nat ->
  (exists ka, ka ∈ owners output st.1 /\
     utxos st'.1 !! op = Some (newRecord st.1 isCoinbase output ka.1)) /\
  (exists before after,
     utxosCreated st'.2 = utxosCreated st.2 ++ before ++ replicate k op ++ after /\
     (op ∉ before) /\ (op ∉ after)).
Proof.
  intros outputs op k st' Hlen Hk. subst st' outputs. unfold evalOutputs.
  rewrite length_app in Hlen. simpl in Hlen.
  rewrite evalOutputs_from_app. simpl.
  set (i := length outs1) in *.
  set (st1 := evalOutputs_from orders 0 outs1 txHash isCoinbase st).
  pose proof (evalOutputs_from_same orders 0 outs1 txHash isCoinbase st) as Hs1.
  fold st1 in Hs1.
  destruct (evalOutputs_from_others orders 0 outs1 txHash isCoinbase st op)
    as (_ & before & Hbefore & Hnb).
  { intros j Hj Heq. apply outpointOf_inj in Heq; fold i in Hj; lia. }
  fold st1 in Hbefore.
  destruct (evalOutput_spec (orders i) i output txHash isCoinbase st1)
    as (kas & Hkas & Hst2).
  set (st2 := evalOutput (orders i) i output txHash isCoinbase st1) in *.
  destruct (evalOutputs_from_others orders (S i) outs2 txHash isCoinbase st2 op)
    as (Hlk & after & Hafter & Hna).
  { intros j Hj Heq. apply outpointOf_inj in Heq; lia. }
  rewrite (owners_same _ _ _ Hs1) in Hkas.
  assert (Hlenk : length kas = k) by (by rewrite Hkas).
  split.
  - destruct (last kas) as [ka|] eqn:Hlast.
    + exists ka. split.
      * rewrite <- Hkas. by apply last_elem_of.
      * rewrite Hlk, Hst2. simpl. rewrite afterLast_lookup, Hlast.
        rewrite decide_True by done.
        by rewrite (newRecord_same _ _ _ _ _ Hs1).
    + apply last_None_nil in Hlast. subst kas. simpl in Hlenk. lia.
  - exists before, after. split; [|done].
    rewrite Hafter, Hst2. simpl. rewrite Hbefore, Hlenk.
    by rewrite <- !app_assoc.
Qed.

(** ** C1: applying an update and unwinding it *)

Lemma evalOutput_undoInv m0 o i output txHash isCoinbase st :
  undoInv m0 st -> undoInv m0 (evalOutput o i output txHash isCoinbase st).
Proof.
  intros Hinv op. destruct (Hinv op) as [Hd Hu].
  destruct (evalOutput_spec o i output txHash isCoinbase st) as (kas & _ & ->).
  simpl. split; [done|]. intros Hnin.
  rewrite elem_of_app in Hnin. rewrite afterLast_lookup.
  destruct (last kas) as [ka|] eqn:Hlast.
  - rewrite decide_False.
    + apply Hu. intros Hc. apply Hnin. by left.
    + intros <-. apply Hnin. right.
      apply elem_of_replicate. split; [done|].
      destruct kas; [done|]. simpl. lia.
  - apply Hu. intros Hc. apply Hnin. by left.
Qed.

Lemma evalOutputs_from_undoInv m0 orders i outputs txHash isCoinbase st :
  undoInv m0 st ->
  undoInv m0 (evalOutputs_from orders i outputs txHash isCoinbase st).
Proof.
  revert i st. induction outputs as [|output rest IH]; intros i st Hinv; simpl.
  - done.
  - by apply IH, evalOutput_undoInv.
Qed.

Lemma evalInput_created st txIn :
  utxosCreated (evalInput st txIn).2 = utxosCreated st.2.
Proof. unfold evalInput. by destruct (utxos st.1 !! _). Qed.

Lemma evalInputs_created inputs st :
  utxosCreated (evalInputs inputs st).2 = utxosCreated st.2.
Proof.
  unfold evalInputs. revert st.
  induction inputs as [|txIn rest IH]; intros st; simpl; [done|].
  by rewrite IH, evalInput_created.
Qed.

Lemma evalInput_undoInv m0 st txIn :
  undoInv m0 st ->
  PreviousOutPoint txIn ∉ utxosCreated st.2 ->
  undoInv m0 (evalInput st txIn).
Proof.
  intros Hinv Hnin op. destruct (Hinv op) as [Hd Hu].
  destruct (Hinv (PreviousOutPoint txIn)) as [Hd' Hu'].
  specialize (Hu' Hnin).
  unfold evalInput.
  destruct (utxos st.1 !! PreviousOutPoint txIn) as [old|] eqn:Hold; [|done].
  simpl.
  destruct (utxosDestroyed st.2 !! PreviousOutPoint txIn) eqn:Hdes; [done|].
  destruct (decide (PreviousOutPoint txIn = op)) as [<-|Hne].
  - rewrite lookup_insert_eq, lookup_delete_eq. split; [|done].
    intros r [= <-]. by rewrite <- Hu'.
  - rewrite lookup_insert_ne, lookup_delete_ne by done. done.
Qed.

Lemma evalInputs_undoInv m0 inputs st :
  undoInv m0 st ->
  (forall txIn, txIn ∈ inputs -> PreviousOutPoint txIn ∉ utxosCreated st.2) ->
  undoInv m0 (evalInputs inputs st).
Proof.
  unfold evalInputs. revert st.
  induction inputs as [|txIn rest IH]; intros st Hinv Hnin; simpl; [done|].
  apply IH.
  - apply evalInput_undoInv; [done|]. apply Hnin. left.
  - intros t Ht. rewrite evalInput_created. apply Hnin. by right.
Qed.

Lemma evalOutputs_from_created_prefix orders i outputs txHash isCoinbase st :
  utxosCreated st.2 `prefix_of`
  utxosCreated (evalOutputs_from orders i outputs txHash isCoinbase st).2.
Proof.
  revert i st. induction outputs as [|output rest IH]; intros i st; simpl; [done|].
  etrans; [|apply IH].
  destruct (evalOutput_spec (orders i) i output txHash isCoinbase st)
    as (kas & _ & ->).
  simpl. by apply prefix_app_r.
Qed.

Lemma applyTxns_created_prefix orders t txns st :
  utxosCreated st.2 `prefix_of` utxosCreated (applyTxns orders t txns st).2.
Proof.
  revert t st. induction txns as [|tx rest IH]; intros t st; simpl; [done|].
  etrans; [|apply IH].
  rewrite evalInputs_created. apply evalOutputs_from_created_prefix.
Qed.

Lemma applyTxns_undoInv m0 orders t txns st :
  undoInv m0 st ->
  (forall tx txIn, tx ∈ txns -> txIn ∈ TxIn_ (MsgTx tx) ->
     PreviousOutPoint txIn ∉ utxosCreated (applyTxns orders t txns st).2) ->
  undoInv m0 (applyTxns orders t txns st).
Proof.
  revert t st. induction txns as [|tx rest IH]; intros t st Hinv Hns; simpl; [done|].
  simpl in Hns.
  set (st1 := evalOutputs (orders t) (TxOut_ (MsgTx tx)) (TxHash (MsgTx tx))
                (IsCoinBaseTx st.1 (MsgTx tx)) st) in *.
  set (st2 := evalInputs (TxIn_ (MsgTx tx)) st1) in *.
  apply IH.
  - apply evalInputs_undoInv.
    + by apply evalOutputs_from_undoInv.
    + intros txIn Hin Hcr. eapply Hns; [left | exact Hin |].
      eapply elem_of_prefix; [|apply applyTxns_created_prefix].
      subst st2. by rewrite evalInputs_created.
  - intros tx' txIn Htx' Hin. eapply Hns; [by right | exact Hin].
Qed.

Lemma deleteCreated_lookup created m op :
  deleteCreated created m !! op =
  if decide (op ∈ created) then None else m !! op.
Proof.
  unfold deleteCreated. revert m.
  induction created as [|c created IH]; intros m.
  - destruct (decide (op ∈ [])) as [Hin|_]; [|done].
    by apply elem_of_nil in Hin.
  - simpl foldl. rewrite IH.
    destruct (decide (op ∈ created)) as [Hin|Hnin];
      destruct (decide (op ∈ c :: created)) as [Hin'|Hnin']; try done.
    + exfalso. apply Hnin'. by right.
    + apply elem_of_cons in Hin' as [->|?]; [|done]. apply lookup_delete_eq.
    + apply lookup_delete_ne. intros ->. apply Hnin'. left.
Qed.

Lemma restoreDestroyed_lookup (l : list (OutPoint * utxo)) m op :
  NoDup l.*1 ->
  restoreDestroyed l m !! op =
  match (list_to_map l : gmap OutPoint utxo) !! op with
  | Some r => Some r
  | None => m !! op
  end.
Proof.
  unfold restoreDestroyed. revert m.
  induction l as [|[k v] l IH]; intros m Hnd; simpl; [done|].
  apply NoDup_cons in Hnd as [Hk Hnd]. rewrite IH by done.
  destruct (decide (k = op)) as [->|Hne].
  - rewrite lookup_insert_eq.
    rewrite (not_elem_of_list_to_map_1 l op Hk). by rewrite lookup_insert_eq.
  - rewrite !lookup_insert_ne by done. done.
Qed.

(** The order in which [UnwindBlock] visits the destroyed map is
    immaterial. *)
Lemma restoreDestroyed_range o (d : gmap OutPoint utxo) m op :
  restoreDestroyed (range o d) m !! op =
  match d !! op with
  | Some r => Some r
  | None => m !! op
  end.
Proof.
  assert (Hnd : NoDup (range o d).*1).
  { unfold range. rewrite permute_perm. apply NoDup_fst_map_to_list. }
  rewrite restoreDestroyed_lookup by done.
  rewrite (list_to_map_proper (range o d) (map_to_list d) Hnd (permute_perm o _)).
  by rewrite list_to_map_to_list.
Qed.

Lemma unwind_restores m0 o st :
  undoInv m0 st ->
  (forall op, op ∈ utxosCreated st.2 -> m0 !! op = None) ->
  restoreDestroyed (range o (utxosDestroyed st.2))
    (deleteCreated (utxosCreated st.2) (utxos st.1)) = m0.
Proof.
  intros Hinv Hfresh. apply map_eq. intros op.
  rewrite restoreDestroyed_range, deleteCreated_lookup.
  destruct (Hinv op) as [Hd Hu].
  destruct (utxosDestroyed st.2 !! op) as [r|] eqn:Hdes.
  - symmetry. by apply Hd.
  - case_decide as Hin.
    + symmetry. by apply Hfresh.
    + by apply Hu.
Qed.

Lemma applyUpdate_journal orders U w :
  reorgJournal (applyUpdate orders U w) !! blockHeight U
  = Some (journalled orders U w).
Proof.
  unfold applyUpdate, journalled.
  change (reorgJournal (set_reorgJournal ?j ?x)) with j.
  apply lookup_insert_eq.
Qed.

(** C1 (amended).  Let update [U] be such that the outpoints it creates are
    new to the ledger and none of its inputs spends an outpoint it creates.
    Applying [U] and unwinding the header of [U]'s height returns normally;
    the Output Record set is the one before [U], the journal has no entry
    for [U]'s height (and is otherwise as before), and every other field is
    as before, except [currentHeight], which stays at [U]'s height. *)
Theorem UnwindBlock_applyUpdate
    (orders : nat -> nat -> rangeOrder (Z * Address))
    (o : rangeOrder (OutPoint * utxo))
    (U : chainUpdate) (w : InMemoryWallet) (header : bytes) (hdr : BlockHeader) :
  FromBytes header = inr hdr ->
  uint32 (Height hdr) = blockHeight U ->
  (forall op, op ∈ utxosCreated (journalled orders U w) -> utxos w !! op = None) ->
  (forall tx txIn, tx ∈ filteredTxns U -> txIn ∈ TxIn_ (MsgTx tx) ->
     PreviousOutPoint txIn ∉ utxosCreated (journalled orders U w)) ->
  exists w',
    UnwindBlock FromBytes o header (applyUpdate orders U w) = Returns w' /\
    utxos w' = utxos w /\
    reorgJournal w' !! blockHeight U = None /\
    reorgJournal w' = delete (blockHeight U) (reorgJournal w) /\
    currentHeight w' = blockHeight U /\
    w' = set_reorgJournal (delete (blockHeight U) (reorgJournal w))
           (set_currentHeight (blockHeight U) w).
Proof.
  intros Hdec Hh Hfresh Hnospend.
  unfold UnwindBlock. rewrite Hdec, Hh.
  unfold journalled in Hfresh, Hnospend. unfold applyUpdate.
  set (w1 := set_currentHeight (blockHeight U) w) in Hfresh, Hnospend |- *.
  set (st0 := (w1, {| utxosDestroyed := ∅; utxosCreated := [] |})) in Hfresh, Hnospend |- *.
  assert (Hinv0 : undoInv (utxos w) st0).
  { intros op. simpl. rewrite lookup_empty. split; [done|]. by destruct w. }
  pose proof (applyTxns_undoInv (utxos w) orders 0 (filteredTxns U) st0
                Hinv0 Hnospend) as Hinv.
  pose proof (applyTxns_same orders 0 (filteredTxns U) st0) as Hsame.
  set (st := applyTxns orders 0 (filteredTxns U) st0) in Hfresh, Hnospend, Hinv, Hsame |- *.
  pose proof (unwind_restores (utxos w) o st Hinv Hfresh) as Hrestore.
  destruct st as [w2 undo]. simpl in Hrestore, Hsame |- *.
  rewrite lookup_insert_eq. eexists. split; [reflexivity|].
  simpl. rewrite Hrestore. rewrite delete_insert_eq.
  unfold sameButUtxos in Hsame. rewrite Hsame. subst w1. destruct w. simpl.
  rewrite lookup_delete_eq. done.
Qed.

(** ** C5: locked records *)

Lemma isLocked_skipped w u : isLocked u = true -> skipped w u = true.
Proof. unfold skipped. intros ->. apply orb_true_r. Qed.

Lemma skipped_unlock w w' u :
  sameButUtxos w w' ->
  skipped w' (unlock u) = negb (isMature u (currentHeight w)).
Proof. intros ->. unfold skipped. simpl. apply orb_false_r. Qed.

(** C5.  While the record at [op] is locked, balance and listing are what
    they would be without it.  Once [UnlockOutputs] has been called with an
    input naming [op], the record is unlocked and, if it is mature, balance
    and listing are what they would be without it plus its value (balance)
    and plus one entry carrying its value (listing). *)
Theorem locked_record_excluded_until_unlocked
    (o o' : rangeOrder (OutPoint * utxo)) (account : string)
    (w : InMemoryWallet) (op : OutPoint) (u : utxo) (inputs : list InputTx) :
  utxos w !! op = Some u ->
  isLocked u = true ->
  op ∈ PreviousOutPoint <$> inputs ->
  let w' := (UnlockOutputs inputs w).2 in
  (balanceOf o account w = balanceOf o' account (without op w) /\
   listingOf o w ≡ₚ listingOf o' (without op w)) /\
  (UnlockOutputs inputs w).1 = None /\
  utxos w' !! op = Some (unlock u) /\
  (isMature u (currentHeight w) = true ->
   balanceOf o account w'
     = int64 (balanceOf o' account (without op w') + value u) /\
   listingOf o w' ≡ₚ
     {| Account := EmptyString; UnspentAmount := value u |}
       :: listingOf o' (without op w')).
Proof.
  intros Hop Hlocked Hin w'.
  pose proof (UnlockOutputs_lookup inputs w op u Hin Hop) as Hop'.
  fold w' in Hop'.
  split; [|split; [done|split; [done|]]].
  - apply skipped_record_excluded with (u := u); [done|].
    by apply isLocked_skipped.
  - intros Hmature.
    apply (kept_record_included o o' account w' op (unlock u) Hop').
    rewrite (skipped_unlock w w' u) by apply foldl_unlockOutput_same.
    by rewrite Hmature.
Qed.

(** ** C4: maturity *)

Lemma applyUpdate_lookup orders U w op r :
  utxos (applyUpdate orders U w) !! op = Some r ->
  utxos w !! op = Some r \/
  exists tx j output, tx ∈ filteredTxns U /\
    TxOut_ (MsgTx tx) !! j = Some output /\
    storedFor (set_currentHeight (blockHeight U) w)
      (IsCoinBaseTx w (MsgTx tx)) (TxHash (MsgTx tx)) j output op r.
Proof.
  unfold applyUpdate. intros H.
  change (utxos (set_reorgJournal ?j ?x)) with (utxos x) in H.
  apply applyTxns_lookup in H as [H|H]; [by left|].
  right. destruct H as (tx & j & out & Htx & Hj & Hst). exists tx, j, out.
  split; [done|]. split; [done|]. exact Hst.
Qed.

(** C4 (amended).  A record that the application of update [U] put into the
    ledger stems from an output of a transaction of [U]; its maturity height
    is [U]'s height plus the coinbase maturity window if that transaction is
    a coinbase and 0 otherwise.  In any ledger that holds this record,
    locked or not, balance and listing leave it out while the current height
    is below its maturity height, and take it in once the current height has
    reached it, provided the record is not locked.  Neither call changes
    the wallet. *)
Theorem maturity_gating
    (orders : nat -> nat -> rangeOrder (Z * Address))
    (o o' : rangeOrder (OutPoint * utxo)) (account : string)
    (U : chainUpdate) (w : InMemoryWallet) (op : OutPoint) (r : utxo)
    (w2 : InMemoryWallet) (u : utxo) :
  in_int64 (blockHeight U + CoinbaseMaturity (net w)) ->
  utxos (applyUpdate orders U w) !! op = Some r ->
  utxos w !! op <> Some r ->
  utxos w2 !! op = Some u ->
  unlock u = r ->
  (exists tx j output, tx ∈ filteredTxns U /\
     TxOut_ (MsgTx tx) !! j = Some output /\
     op = outpointOf (TxHash (MsgTx tx)) j /\
     maturityHeight u =
       if IsCoinBaseTx w (MsgTx tx)
       then blockHeight U + CoinbaseMaturity (net w) else 0) /\
  (currentHeight w2 < maturityHeight u ->
   balanceOf o account w2 = balanceOf o' account (without op w2) /\
   listingOf o w2 ≡ₚ listingOf o' (without op w2)) /\
  (maturityHeight u <= currentHeight w2 -> isLocked u = false ->
   balanceOf o account w2
     = int64 (balanceOf o' account (without op w2) + value u) /\
   listingOf o w2 ≡ₚ
     {| Account := EmptyString; UnspentAmount := value u |}
       :: listingOf o' (without op w2)) /\
  (GetBalance o account w2).2 = w2 /\
  (ListUnspent o w2).2 = w2.
Proof.
  intros Hrange Happ Hnew Hw2 Hu.
  split; [|split; [|split; [|done]]].
  - apply applyUpdate_lookup in Happ as [?|(tx & j & out & Htx & Hj & Hop & ka & _ & Hr)];
      [done|].
    exists tx, j, out. repeat split; try done.
    rewrite <- Hu in Hr. apply (f_equal maturityHeight) in Hr. simpl in Hr.
    rewrite Hr. destruct (IsCoinBaseTx w (MsgTx tx)); [|done].
    replace (currentHeight (set_currentHeight (blockHeight U) w))
      with (blockHeight U) by done.
    replace (net (set_currentHeight (blockHeight U) w)) with (net w) by done.
    by apply int64_id.
  - intros Hlt. apply skipped_record_excluded with (u := u); [done|].
    unfold skipped, isMature. rewrite bool_decide_eq_false_2 by lia. done.
  - intros Hge Hunlocked. apply kept_record_included; [done|].
    unfold skipped, isMature. rewrite bool_decide_eq_true_2 by lia.
    by rewrite Hunlocked.
Qed.

(** ** C7: the indices [NewAddress] hands out *)

Lemma NewAddress_err w node err w1 node1 :
  NewAddress Child ECPrivKey keyToAddr LoadTxFilter w node = (inl err, w1, node1) -> w1 = w.
Proof.
  unfold NewAddress, newAddress.
  destruct (Child (hdRoot w) (hdIndex w)) as [?|ck]; [by intros [= _ <- _]|].
  destruct (ECPrivKey ck) as [?|pk]; [by intros [= _ <- _]|].
  destruct (keyToAddr pk (net w)) as [?|addr]; [by intros [= _ <- _]|].
  destruct (LoadTxFilter false [addr] node) as [[?|] ?]; [by intros [= _ <- _]|].
  done.
Qed.

Lemma NewAddress_ok w node a w1 node1 :
  NewAddress Child ECPrivKey keyToAddr LoadTxFilter w node = (inr a, w1, node1) ->
  w1 = set_hdIndex (uint32 (hdIndex w + 1))
         (set_addrs (<[hdIndex w := a]> (addrs w)) w).
Proof.
  unfold NewAddress, newAddress.
  destruct (Child (hdRoot w) (hdIndex w)) as [?|ck]; [done|].
  destruct (ECPrivKey ck) as [?|pk]; [done|].
  destruct (keyToAddr pk (net w)) as [?|addr]; [done|].
  destruct (LoadTxFilter false [addr] node) as [[?|] ?]; [done|].
  by intros [= <- <- _].
Qed.

(** C7 (amended).  Over a run of calls that keeps the counter below 2^32,
    the successful calls register their addresses at consecutive indices
    starting at the wallet's next index (0, 1, 2, ... for a new wallet): the
    indices are pairwise different, the counter has advanced by the number
    of successful calls, every address is still registered under its index
    at the end, and the entries below the starting index are untouched. *)
Theorem NewAddress_indices_dense
    (n : nat) (w : InMemoryWallet) (node : Node)
    (l : list (Z * Address)) (w' : InMemoryWallet) (node' : Node) :
  NewAddress_n Child ECPrivKey keyToAddr LoadTxFilter n w node = (l, w', node') ->
  0 <= hdIndex w ->
  hdIndex w + Z.of_nat n < 2 ^ 32 ->
  l.*1 = seqZ (hdIndex w) (Z.of_nat (length l)) /\
  NoDup l.*1 /\
  hdIndex w' = hdIndex w + Z.of_nat (length l) /\
  (forall i a, (i, a) ∈ l -> addrs w' !! i = Some a) /\
  (forall i, i < hdIndex w -> addrs w' !! i = addrs w !! i).
Proof.
  revert w node l w' node'.
  induction n as [|n IH]; intros w node l w' node' Hrun Hpos Hbound.
  - simpl in Hrun. injection Hrun as <- <- <-. simpl.
    repeat split; try done.
    + apply NoDup_nil_2.
    + lia.
    + intros i a Hin. by apply elem_of_nil in Hin.
  - simpl in Hrun.
    destruct (NewAddress Child ECPrivKey keyToAddr LoadTxFilter w node) as [[[err|a] w1] node1] eqn:Hcall.
    + injection Hrun as <- <- <-. apply NewAddress_err in Hcall as ->. simpl.
      repeat split; try done.
      * apply NoDup_nil_2.
      * lia.
      * intros i a Hin. by apply elem_of_nil in Hin.
    + apply NewAddress_ok in Hcall.
      destruct (NewAddress_n Child ECPrivKey keyToAddr LoadTxFilter n w1 node1) as [[l1 w2] node2] eqn:Hrest.
      injection Hrun as <- <- <-.
      assert (Hidx : hdIndex w1 = hdIndex w + 1).
      { rewrite Hcall. simpl. unfold uint32. rewrite Z.mod_small; lia. }
      assert (Haddrs : addrs w1 = <[hdIndex w := a]> (addrs w))
        by (by rewrite Hcall).
      destruct (IH w1 node1 l1 w2 node2 Hrest) as (Hseq & Hnd & Hfin & Hreg & Hlow);
        [lia | lia |].
      assert (Hl : ((hdIndex w, a) :: l1).*1
                   = seqZ (hdIndex w) (Z.of_nat (length ((hdIndex w, a) :: l1)))).
      { rewrite fmap_cons. cbn [fst length].
        rewrite seqZ_cons by lia. f_equal. rewrite Hseq, Hidx.
        f_equal; lia. }
      split; [exact Hl|]. split; [rewrite Hl; apply NoDup_seqZ|].
      split; [simpl length; lia|]. split.
      * intros i b Hin. apply elem_of_cons in Hin as [[= -> ->]|Hin].
        -- rewrite Hlow by lia. rewrite Haddrs. apply lookup_insert_eq.
        -- by apply Hreg.
      * intros i Hi. rewrite Hlow by lia. rewrite Haddrs.
        apply lookup_insert_ne. lia.
Qed.

(** ** C3: updates are applied in the order they were queued *)

Lemma applyUpdate_frame orders U w :
  currentHeight (applyUpdate orders U w) = blockHeight U /\
  chainUpdates (applyUpdate orders U w) = chainUpdates w.
Proof.
  unfold applyUpdate.
  pose proof (applyTxns_same orders 0 (filteredTxns U)
    (set_currentHeight (blockHeight U) w,
     {| utxosDestroyed := ∅; utxosCreated := [] |})) as Hs.
  apply sameButUtxos_fields in Hs. destruct Hs as (Hh & _ & _ & Hq & _).
  set (st := applyTxns _ _ _ _) in *. destruct st as [w1 undo]. simpl in *.
  by rewrite Hh, Hq.
Qed.

Lemma UnwindBlock_queue o header (m m' : InMemoryWallet) :
  UnwindBlock FromBytes o header m = Returns m' -> chainUpdates m' = chainUpdates m.
Proof.
  unfold UnwindBlock. destruct (FromBytes header) as [?|hdr]; [done|].
  destruct (reorgJournal m !! _); [|done]. by intros [= <-].
Qed.

Lemma UnwindBlock_panic o header (m : InMemoryWallet) p :
  UnwindBlock FromBytes o header m = Panics p -> p <> IndexOutOfRange.
Proof.
  unfold UnwindBlock. destruct (FromBytes header) as [?|hdr]; [by intros [= <-]|].
  destruct (reorgJournal m !! _); [done|]. by intros [= <-].
Qed.

Lemma decodeTxns_panic dec l acc p :
  decodeTxns dec l acc = Panics p -> p <> IndexOutOfRange.
Proof.
  revert acc. induction l as [|b l IH]; intros acc; simpl; [done|].
  destruct (dec b); [by intros [= <-]|]. apply IH.
Qed.

Lemma IngestBlock_queue header filteredTxns (m m' : InMemoryWallet) :
  IngestBlock FromBytes header filteredTxns m = Returns m' ->
  exists hdr txns, FromBytes header = inr hdr /\
    chainUpdates m' = chainUpdates m ++ [mkChainUpdate (uint32 (Height hdr)) txns].
Proof.
  unfold IngestBlock. destruct (FromBytes header) as [?|hdr]; [done|].
  destruct (decodeTxns _ _ _) as [txns|]; [|done].
  intros [= <-]. by exists hdr, txns.
Qed.

Lemma IngestBlock_panic header filteredTxns (m : InMemoryWallet) p :
  IngestBlock FromBytes header filteredTxns m = Panics p -> p <> IndexOutOfRange.
Proof.
  unfold IngestBlock. destruct (FromBytes header) as [?|hdr]; [by intros [= <-]|].
  destruct (decodeTxns _ _ _) as [txns|q] eqn:Hdec; [done|].
  intros [= <-]. by eapply decodeTxns_panic.
Qed.

Lemma step_fifo ev h :
  signalsMatchQueue h ->
  match step FromBytes ev h with
  | Some (Returns h') =>
      signalsMatchQueue h' /\
      synced h' ++ queuedHeights h'
        = synced h ++ queuedHeights h ++ enqueuedHeights FromBytes [ev]
  | Some (Panics p) => p <> IndexOutOfRange
  | None => True
  end.
Proof.
  unfold signalsMatchQueue, queuedHeights. intros Hm.
  destruct ev as [header txs|o header|orders|]; unfold step.
  - destruct (IngestBlock FromBytes header txs (wallet h)) as [w'|p] eqn:Hing.
    + apply IngestBlock_queue in Hing as (hdr & txns & Hdec & Hq). simpl.
      rewrite Hq, Hdec, length_app, fmap_app. simpl. split; [lia|done].
    + by eapply IngestBlock_panic.
  - destruct (UnwindBlock FromBytes o header (wallet h)) as [w'|p] eqn:Hun.
    + apply UnwindBlock_queue in Hun. simpl. rewrite Hun, app_nil_r. done.
    + by eapply UnwindBlock_panic.
  - destruct (running h); [|done].
    destruct (inflight h) as [|n] eqn:Hn; [done|].
    unfold chainSyncer_iter.
    destruct (chainUpdates (wallet h)) as [|update rest] eqn:Hq; [done|].
    destruct (applyUpdate_frame orders update (set_chainUpdates rest (wallet h)))
      as [Hh Hrest].
    cbn [wallet inflight synced]. rewrite Hh, Hrest.
    replace (chainUpdates (set_chainUpdates rest (wallet h))) with rest by done.
    simpl in Hm. simpl. rewrite app_nil_r.
    split; [lia|]. by rewrite <- app_assoc.
  - destruct (running h); [|done]. simpl. by rewrite app_nil_r.
Qed.

Lemma run_fifo evs h :
  signalsMatchQueue h ->
  match run FromBytes evs h with
  | Some (Returns h') =>
      signalsMatchQueue h' /\
      synced h' ++ queuedHeights h'
        = synced h ++ queuedHeights h ++ enqueuedHeights FromBytes evs
  | Some (Panics p) => p <> IndexOutOfRange
  | None => True
  end.
Proof.
  revert h. induction evs as [|ev evs IH]; intros h Hm.
  - simpl. by rewrite app_nil_r.
  - simpl run. pose proof (step_fifo ev h Hm) as Hstep.
    destruct (step FromBytes ev h) as [[h1|p]|]; [|done|done].
    destruct Hstep as [Hm1 Heq1]. specialize (IH h1 Hm1).
    destruct (run FromBytes evs h1) as [[h'|p]|]; [|done|done].
    destruct IH as [Hm' Heq']. split; [done|].
    rewrite Heq', (app_assoc (synced h1)), Heq1. rewrite <- !app_assoc.
    do 2 f_equal.
    unfold enqueuedHeights. simpl. by destruct (enqueuedHeight FromBytes ev).
Qed.

(** C3.  Start with an empty queue and a running synchronizer, and let block
    notifications, disconnects and synchronizer wake-ups interleave in any
    way.  If the run goes through, the heights the synchronizer has set
    followed by the heights still queued are the heights in enqueue order;
    so once every signal has been received, the heights it has set are
    exactly the enqueue order.  And no run ends with the synchronizer
    popping from an empty queue. *)
Theorem chainSyncer_fifo (evs : list event) (w0 : InMemoryWallet) :
  match run FromBytes evs (mkHarness (set_chainUpdates [] w0) 0 true []) with
  | Some (Returns h) =>
      synced h ++ queuedHeights h = enqueuedHeights FromBytes evs /\
      inflight h = length (chainUpdates (wallet h)) /\
      (inflight h = 0%nat -> synced h = enqueuedHeights FromBytes evs)
  | Some (Panics p) => p <> IndexOutOfRange
  | None => True
  end.
Proof.
  pose proof (run_fifo evs (mkHarness (set_chainUpdates [] w0) 0 true [])
                eq_refl) as H.
  destruct (run FromBytes evs _) as [[h|p]|]; [|done|done].
  destruct H as [Hm Heq]. simpl in Heq. split; [done|]. split; [done|].
  intros H0. unfold signalsMatchQueue in Hm. rewrite H0 in Hm.
  unfold queuedHeights in Heq.
  destruct (chainUpdates (wallet h)); [|done].
  simpl in Heq. by rewrite app_nil_r in Heq.
Qed.

(** * Further properties of the wallet *)

(** Closes a goal whose hypotheses disagree on the membership of an element
    in a list and in the same list with one more element in front. *)
Ltac cons_membership :=
  exfalso; subst;
  match goal with
  | H : ?x ∈ ?y :: ?l, Hn : ¬ ?x ∈ ?l |- _ =>
      apply elem_of_cons in H as [H|H]; [congruence | exact (Hn H)]
  | H : ?x ∈ ?l, Hn : ¬ ?x ∈ ?y :: ?l |- _ =>
      apply Hn; right; exact H
  | Hn : ¬ ?x ∈ ?x :: ?l |- _ =>
      apply Hn; left
  end.

(** ** IngestBlock *)

Lemma decodeTxns_returns dec l acc txns :
  decodeTxns dec l acc = Returns txns <->
  exists new, Forall2 (fun b tx => dec b = inr tx) l new /\ txns = acc ++ new.
Proof.
  revert acc. induction l as [|b l IH]; intros acc; simpl.
  - split.
    + intros [= <-]. exists []. split; [constructor | by rewrite app_nil_r].
    + intros (new & HF & ->). apply Forall2_nil_inv_l in HF as ->.
      by rewrite app_nil_r.
  - destruct (dec b) as [e|tx] eqn:Hb.
    + split; [done|]. intros (new & HF & _).
      apply Forall2_cons_inv_l in HF as (tx & new' & Hd & _ & _). congruence.
    + rewrite IH. split.
      * intros (new & HF & ->). exists (tx :: new).
        split; [by constructor|]. by rewrite <- app_assoc.
      * intros (new & HF & ->).
        apply Forall2_cons_inv_l in HF as (tx' & new' & Hd & HF & ->).
        exists new'. split; [done|]. rewrite <- app_assoc. simpl. congruence.
Qed.

Lemma IngestBlock_returns header filteredTxns (m m' : InMemoryWallet) :
  IngestBlock FromBytes header filteredTxns m = Returns m' <->
  exists hdr txns,
    FromBytes header = inr hdr /\
    Forall2 (fun b tx => NewTxFromBytes m b = inr tx) filteredTxns txns /\
    m' = set_chainUpdates
           (chainUpdates m ++ [mkChainUpdate (uint32 (Height hdr)) txns]) m.
Proof.
  unfold IngestBlock. split.
  - destruct (FromBytes header) as [?|hdr]; [done|].
    destruct (decodeTxns _ _ _) as [txns|] eqn:Hdec; [|done].
    intros [= <-]. apply decodeTxns_returns in Hdec as (new & HF & ->).
    by exists hdr, new.
  - intros (hdr & txns & -> & HF & ->).
    assert (Hdec : decodeTxns (NewTxFromBytes m) filteredTxns [] = Returns txns).
    { apply decodeTxns_returns. by exists txns. }
    by rewrite Hdec.
Qed.

(** X1.  [IngestBlock] returns exactly when the header and every filtered
    transaction decode; the wallet it leaves is the wallet it found with one
    update appended to the tail of the queue: the header's height and the
    decoded transactions, in the order they came.  In every other case it
    panics and nothing is queued. *)
Theorem IngestBlock_returns_iff (header : bytes) (filteredTxns : list bytes)
    (m m' : InMemoryWallet) :
  IngestBlock FromBytes header filteredTxns m = Returns m' <->
  exists hdr txns,
    FromBytes header = inr hdr /\
    Forall2 (fun b tx => NewTxFromBytes m b = inr tx) filteredTxns txns /\
    m' = set_chainUpdates
           (chainUpdates m ++ [mkChainUpdate (uint32 (Height hdr)) txns]) m.
Proof. apply IngestBlock_returns. Qed.

(** ** evalInputs *)

(** X2.  What [evalInputs] does to one outpoint.  If some input names it, it
    is gone from the ledger afterwards, and the destroyed map holds the
    record the ledger had for it (or, if the ledger had none, what the
    destroyed map held before); a second input naming it changes nothing
    more.  If no input names it, ledger and destroyed map are as before.
    The created list is never touched. *)
Theorem evalInputs_moves_spent (inputs : list InputTx) (st : evalState)
    (op : OutPoint) :
  utxosCreated (evalInputs inputs st).2 = utxosCreated st.2 /\
  utxos (evalInputs inputs st).1 !! op =
    (if decide (op ∈ spentBy inputs) then None else utxos st.1 !! op) /\
  utxosDestroyed (evalInputs inputs st).2 !! op =
    (if decide (op ∈ spentBy inputs)
     then match utxos st.1 !! op with
          | Some r => Some r
          | None => utxosDestroyed st.2 !! op
          end
     else utxosDestroyed st.2 !! op).
Proof.
  split; [apply evalInputs_created|].
  unfold evalInputs, spentBy. revert st.
  induction inputs as [|txIn rest IH]; intros st.
  - change (foldl evalInput st []) with st.
    destruct (decide (op ∈ PreviousOutPoint <$> [])) as [H|_]; [|done].
    by apply elem_of_nil in H.
  - simpl foldl. rewrite fmap_cons.
    destruct (IH (evalInput st txIn)) as [IHu IHd]. rewrite IHu, IHd. clear IH IHu IHd.
    unfold evalInput.
    destruct (utxos st.1 !! PreviousOutPoint txIn) as [old|] eqn:Hold; simpl;
      destruct (decide (op = PreviousOutPoint txIn)) as [->|Hne];
      rewrite ?lookup_delete_eq, ?lookup_insert_eq, ?Hold;
      rewrite ?lookup_delete_ne, ?lookup_insert_ne by done;
      repeat case_decide; try done; cons_membership.
Qed.

(** ** UnwindBlock and unwindBlock *)

Lemma UnwindBlock_unwindBlock o header hdr txns (m : InMemoryWallet) :
  FromBytes header = inr hdr ->
  UnwindBlock FromBytes o header m
  = unwindBlock o (mkChainUpdate (uint32 (Height hdr)) txns) m.
Proof. intros Hdec. unfold UnwindBlock, unwindBlock. by rewrite Hdec. Qed.

(** X3.  A journal entry is used up by the unwinding.  When [UnwindBlock]
    returns, the journal has lost the entry of the header's height and kept
    every other one, height, address table and queue are as before, and a
    second [UnwindBlock] for the same header panics on the missing entry. *)
Theorem UnwindBlock_consumes_entry (o o' : rangeOrder (OutPoint * utxo))
    (header : bytes) (m m' : InMemoryWallet) :
  UnwindBlock FromBytes o header m = Returns m' ->
  exists hdr,
    FromBytes header = inr hdr /\
    reorgJournal m' = delete (uint32 (Height hdr)) (reorgJournal m) /\
    currentHeight m' = currentHeight m /\
    addrs m' = addrs m /\
    chainUpdates m' = chainUpdates m /\
    UnwindBlock FromBytes o' header m' = Panics NilDereference.
Proof.
  unfold UnwindBlock. destruct (FromBytes header) as [?|hdr] eqn:Hdec; [done|].
  destruct (reorgJournal m !! uint32 (Height hdr)) as [undo|]; [|done].
  intros [= <-]. exists hdr. split; [done|]. simpl.
  repeat (split; [done|]). by rewrite lookup_delete_eq.
Qed.

(** ** GetBalance and ListUnspent *)

(** X4.  The order in which the runtime walks the ledger map is immaterial
    to [GetBalance], and changes the result of [ListUnspent] by a
    rearrangement only. *)
Theorem GetBalance_order_independent (o o' : rangeOrder (OutPoint * utxo))
    (account : string) (w : InMemoryWallet) :
  balanceOf o account w = balanceOf o' account w /\
  listingOf o w ≡ₚ listingOf o' w.
Proof.
  split.
  - by rewrite !balanceOf_total.
  - by rewrite !listingOf_perm.
Qed.

Lemma sumAmounts_perm l1 l2 : l1 ≡ₚ l2 -> sumAmounts l1 = sumAmounts l2.
Proof. unfold sumAmounts. induction 1; simpl; lia. Qed.

Lemma sumAmounts_selected w l : sumAmounts (omap (selected w) l) = total w l.
Proof.
  unfold sumAmounts, total, contribution.
  induction l as [|e l IH]; simpl in *; [done|].
  unfold selected at 1. destruct (skipped w e.2); simpl.
  - rewrite Z.add_0_l. exact IH.
  - f_equal. exact IH.
Qed.

(** X5.  Balance and listing agree: the balance is the sum of the amounts
    [ListUnspent] returns, reduced to an int64. *)
Theorem GetBalance_sums_ListUnspent (o o' : rangeOrder (OutPoint * utxo))
    (account : string) (w : InMemoryWallet) :
  balanceOf o account w = int64 (sumAmounts (listingOf o' w)).
Proof.
  rewrite balanceOf_total.
  rewrite (sumAmounts_perm _ _ (listingOf_perm o' w)).
  by rewrite sumAmounts_selected.
Qed.

(** ** evalOutputs *)

Lemma evalOutput_no_owner o i output txHash isCoinbase st :
  owners output st.1 = [] ->
  evalOutput o i output txHash isCoinbase st = st.
Proof.
  intros Hnone.
  destruct (evalOutput_spec o i output txHash isCoinbase st) as (kas & Hkas & ->).
  rewrite Hnone in Hkas. apply Permutation_nil_r in Hkas as ->.
  unfold afterLast. simpl. rewrite app_nil_r. by destruct st as [w []].
Qed.

(** X6.  Outputs that pay none of the wallet's addresses (all of them, when
    the address table is empty) leave the wallet and the undo entry as they
    are. *)
Theorem evalOutputs_no_owner (orders : nat -> rangeOrder (Z * Address))
    (outputs : list TxOut) (txHash : bytes) (isCoinbase : bool)
    (st : evalState) :
  Forall (fun output => owners output st.1 = []) outputs ->
  evalOutputs orders outputs txHash isCoinbase st = st.
Proof.
  unfold evalOutputs. generalize 0%nat.
  induction outputs as [|output rest IH]; intros i Hall; simpl; [done|].
  apply Forall_cons in Hall as [Hout Hrest].
  rewrite evalOutput_no_owner by done. by apply IH.
Qed.

Lemma bytes_HasPrefix_spec s pre :
  bytes_HasPrefix s pre = true <-> exists post, s = pre ++ post.
Proof.
  revert s. induction pre as [|p pre IH]; intros s.
  - destruct s; simpl; (split; [by eexists | done]).
  - destruct s as [|c s]; simpl.
    + split; [done | by intros (post & H)].
    + rewrite andb_true_iff, bool_decide_eq_true, IH. split.
      * intros (-> & post & ->). by exists post.
      * intros (post & [= -> ->]). split; [done | by exists post].
Qed.

Lemma bytes_Contains_spec b sub :
  bytes_Contains b sub = true <-> exists pre post, b = pre ++ sub ++ post.
Proof.
  induction b as [|c b IH].
  - destruct sub as [|x sub]; simpl.
    + split; [intros _; by exists [], [] | done].
    + split; [done|]. intros (pre & post & H). by destruct pre.
  - change (bytes_Contains (c :: b) sub)
      with (bytes_HasPrefix (c :: b) sub || bytes_Contains b sub).
    rewrite orb_true_iff, IH, bytes_HasPrefix_spec. split.
    + intros [(post & H) | (pre & post & ->)].
      * by exists [], post.
      * by exists (c :: pre), post.
    + intros (pre & post & H). destruct pre as [|c' pre].
      * left. by exists post.
      * right. injection H as -> ->. by exists pre, post.
Qed.

(** X7.  The ownership test of [evalOutputs] is containment: an address
    counts as paid by an output exactly when its script hash occurs as a
    run of consecutive bytes somewhere in the output's script. *)
Theorem pays_iff_subslice (output : TxOut) (ka : Z * Address) :
  pays output ka <->
  exists pre post, PkScript output = pre ++ ScriptAddress ka.2 ++ post.
Proof. unfold pays. apply bytes_Contains_spec. Qed.

(** ** UnlockOutputs *)

Lemma foldl_unlockOutput_lookup inputs w k :
  utxos (foldl unlockOutput w inputs) !! k =
  (if decide (k ∈ spentBy inputs) then unlock else id) <$> utxos w !! k.
Proof.
  unfold spentBy. revert w.
  induction inputs as [|input rest IH]; intros w.
  - change (foldl unlockOutput w []) with w.
    destruct (decide (k ∈ PreviousOutPoint <$> [])) as [H|_].
    + by apply elem_of_nil in H.
    + by destruct (utxos w !! k).
  - simpl foldl. rewrite IH, unlockOutput_lookup, fmap_cons. clear IH.
    destruct (utxos w !! k) as [u|]; simpl;
      repeat case_decide; try done; cons_membership.
Qed.

(** X8.  [UnlockOutputs] reports no error and changes lock flags only: a
    record named by an input comes out unlocked and otherwise identical,
    every other record is untouched, no record appears or disappears (an
    input naming an outpoint the ledger does not have is skipped), and
    calling it again with the same inputs changes nothing. *)
Theorem UnlockOutputs_only_unlocks (inputs : list InputTx) (w : InMemoryWallet) :
  (UnlockOutputs inputs w).1 = None /\
  sameButUtxos w (UnlockOutputs inputs w).2 /\
  (forall k, utxos (UnlockOutputs inputs w).2 !! k =
     (if decide (k ∈ spentBy inputs) then unlock else id) <$> utxos w !! k) /\
  (UnlockOutputs inputs (UnlockOutputs inputs w).2).2 = (UnlockOutputs inputs w).2.
Proof.
  unfold UnlockOutputs. simpl.
  split; [done|]. split; [apply foldl_unlockOutput_same|].
  split; [apply foldl_unlockOutput_lookup|].
  assert (Hu : utxos (foldl unlockOutput (foldl unlockOutput w inputs) inputs)
               = utxos (foldl unlockOutput w inputs)).
  { apply map_eq. intros k. rewrite !foldl_unlockOutput_lookup.
    destruct (utxos w !! k); simpl; [|done]. by case_decide. }
  revert Hu. generalize (foldl unlockOutput w inputs). intros w1 Hu.
  pose proof (foldl_unlockOutput_same inputs w1) as Hs.
  unfold sameButUtxos in Hs. rewrite Hs, Hu. by destruct w1.
Qed.

(** ** What an update changes *)



(** ** What an update reads *)








(** ** Connecting a block again *)



(** ** After the stop signal *)

Lemma UnwindBlock_height o header (m m' : InMemoryWallet) :
  UnwindBlock FromBytes o header m = Returns m' ->
  currentHeight m' = currentHeight m.
Proof.
  unfold UnwindBlock. destruct (FromBytes header) as [?|hdr]; [done|].
  destruct (reorgJournal m !! _); [|done]. by intros [= <-].
Qed.

Lemma step_stopped ev h h' :
  running h = false ->
  step FromBytes ev h = Some (Returns h') ->
  running h' = false /\ synced h' = synced h /\
  currentHeight (wallet h') = currentHeight (wallet h) /\
  chainUpdates (wallet h) `prefix_of` chainUpdates (wallet h').
Proof.
  intros Hstopped. destruct ev as [header txs|o header|orders|]; unfold step.
  - destruct (IngestBlock FromBytes header txs (wallet h)) as [w'|p] eqn:Hing; [|done].
    intros [= <-]. apply IngestBlock_returns in Hing as (hdr & txns & _ & _ & ->).
    simpl. repeat split; try done. by apply prefix_app_r.
  - destruct (UnwindBlock FromBytes o header (wallet h)) as [w'|p] eqn:Hun; [|done].
    intros [= <-]. simpl.
    rewrite (UnwindBlock_height _ _ _ _ Hun), (UnwindBlock_queue _ _ _ _ Hun).
    done.
  - by rewrite Hstopped.
  - by rewrite Hstopped.
Qed.

Lemma run_stopped evs h h' :
  running h = false ->
  run FromBytes evs h = Some (Returns h') ->
  running h' = false /\ synced h' = synced h /\
  currentHeight (wallet h') = currentHeight (wallet h) /\
  chainUpdates (wallet h) `prefix_of` chainUpdates (wallet h').
Proof.
  revert h. induction evs as [|ev evs IH]; intros h Hstopped; simpl.
  - by intros [= <-].
  - destruct (step FromBytes ev h) as [[h1|p]|] eqn:Hstep; [|done|done].
    intros Hrun.
    destruct (step_stopped ev h h1 Hstopped Hstep) as (Hr1 & Hs1 & Hh1 & Hq1).
    destruct (IH h1 Hr1 Hrun) as (Hr & Hs & Hh & Hq).
    split; [done|]. split; [congruence|]. split; [congruence|]. by etrans.
Qed.

(** X12.  Once the synchronizer has received the stop signal, no update is
    applied any more.  Whatever notifications follow, the heights it has set
    and the wallet's height stay as they were, and the updates queued at
    that moment stay at the head of the queue, in front of those announced
    later. *)
Theorem chainSyncer_stop_is_final (evs : list event) (h h' : harness) :
  run FromBytes (SyncerStops :: evs) h = Some (Returns h') ->
  running h' = false /\
  synced h' = synced h /\
  currentHeight (wallet h') = currentHeight (wallet h) /\
  chainUpdates (wallet h) `prefix_of` chainUpdates (wallet h').
Proof.
  simpl. destruct (running h); [|done]. simpl. intros Hrun.
  by apply run_stopped in Hrun.
Qed.

(** ** The heights in the queue *)

Lemma enqueuedHeights_range evs :
  Forall (fun z => 0 <= z < 2 ^ 32) (enqueuedHeights FromBytes evs).
Proof.
  unfold enqueuedHeights. induction evs as [|ev evs IH]; simpl; [constructor|].
  destruct (enqueuedHeight FromBytes ev) as [z|] eqn:Hz; [|done].
  constructor; [|done].
  destruct ev as [header txs| | |]; try done. simpl in Hz.
  destruct (FromBytes header); [done|]. injection Hz as <-.
  unfold uint32. apply Z.mod_pos_bound. lia.
Qed.

(** X13.  Heights come from the 32-bit height field of a block header:
    starting from an empty queue, every height the synchronizer has set and
    every height waiting in the queue lies between 0 and 2^32 - 1. *)
Theorem queued_heights_are_uint32 (evs : list event) (w0 : InMemoryWallet)
    (h : harness) :
  run FromBytes evs (mkHarness (set_chainUpdates [] w0) 0 true []) = Some (Returns h) ->
  Forall (fun z => 0 <= z < 2 ^ 32) (synced h) /\
  Forall (fun u => 0 <= blockHeight u < 2 ^ 32) (chainUpdates (wallet h)).
Proof.
  intros Hrun.
  pose proof (run_fifo evs (mkHarness (set_chainUpdates [] w0) 0 true [])
                eq_refl) as H.
  rewrite Hrun in H. destruct H as [_ Heq]. simpl in Heq.
  pose proof (enqueuedHeights_range evs) as Hall. rewrite <- Heq in Hall.
  apply Forall_app in Hall as [Hs Hq]. split; [done|].
  unfold queuedHeights in Hq. by apply Forall_fmap in Hq.
Qed.

(** ** updateTxFilter *)

Lemma filterAddrs_values o w : filterAddrs o w = (range o (addrs w)).*2.
Proof.
  unfold filterAddrs.
  assert (H : forall l acc,
            foldl (fun acc (kv : Z * Address) => acc ++ [kv.2]) acc l = acc ++ l.*2).
  { induction l as [|kv l IH]; intros acc; simpl.
    - by rewrite app_nil_r.
    - rewrite IH. by rewrite <- app_assoc. }
  apply H.
Qed.

(** X14.  The list [updateTxFilter] hands to the node holds the addresses
    of the table, one entry per index: it is a rearrangement of the table's
    values, so it has as many entries as the table, and an address is in it
    exactly when it is registered under some index. *)
Theorem updateTxFilter_lists_all_addresses (o : rangeOrder (Z * Address))
    (w : InMemoryWallet) (node : Node) :
  updateTxFilter LoadTxFilter o w node
    = LoadTxFilter true (filterAddrs o w) node /\
  filterAddrs o w ≡ₚ (map_to_list (addrs w)).*2 /\
  length (filterAddrs o w) = size (addrs w) /\
  (forall a, a ∈ filterAddrs o w <-> exists i, addrs w !! i = Some a).
Proof.
  split; [done|].
  assert (Hperm : filterAddrs o w ≡ₚ (map_to_list (addrs w)).*2).
  { rewrite filterAddrs_values. unfold range. by rewrite permute_perm. }
  split; [done|]. split.
  - rewrite Hperm, length_fmap. apply length_map_to_list.
  - intros a. rewrite Hperm, list_elem_of_fmap. split.
    + intros ([i a'] & -> & Hin). exists i. by apply elem_of_map_to_list.
    + intros (i & Hi). exists (i, a). split; [done|]. by apply elem_of_map_to_list.
Qed.

(** ** What evalOutputs writes *)

Lemma evalOutputs_from_writes orders i outputs txHash isCoinbase st :
  exists suffix,
    utxosCreated (evalOutputs_from orders i outputs txHash isCoinbase st).2
      = utxosCreated st.2 ++ suffix /\
    Forall (fun op =>
              Hash op = txHash /\
              is_Some (utxos (evalOutputs_from orders i outputs txHash isCoinbase st).1
                         !! op)) suffix /\
    forall op, op ∉ suffix ->
      utxos (evalOutputs_from orders i outputs txHash isCoinbase st).1 !! op
      = utxos st.1 !! op.
Proof.
  revert i st. induction outputs as [|output rest IH]; intros i st.
  - exists []. simpl. rewrite app_nil_r. split; [done|]. split; [constructor|done].
  - simpl evalOutputs_from.
    destruct (evalOutput_spec (orders i) i output txHash isCoinbase st)
      as (kas & _ & Hst1).
    destruct (IH (S i) (evalOutput (orders i) i output txHash isCoinbase st))
      as (suffix & Hcr & Hall & Hrest).
    exists (replicate (length kas) (outpointOf txHash i) ++ suffix).
    split; [|split].
    + rewrite Hcr, Hst1. simpl. by rewrite <- app_assoc.
    + apply Forall_app. split; [|done].
      destruct kas as [|ka kas]; [constructor|].
      apply Forall_forall. intros op [-> _]%elem_of_replicate.
      split; [done|].
      destruct (decide (outpointOf txHash i ∈ suffix)) as [Hin|Hnin].
      * rewrite Forall_forall in Hall. by apply Hall.
      * rewrite Hrest by done. rewrite Hst1. simpl.
        rewrite afterLast_lookup.
        destruct (last (ka :: kas)) as [kb|] eqn:Hlast.
        -- rewrite decide_True by done. by eexists.
        -- by apply last_None in Hlast.
    + intros op Hnin. rewrite elem_of_app in Hnin.
      rewrite Hrest by (intros ?; apply Hnin; by right).
      rewrite Hst1. simpl. rewrite afterLast_lookup.
      destruct (last kas) as [ka|] eqn:Hlast; [|done].
      rewrite decide_False; [done|]. intros <-. apply Hnin. left.
      apply elem_of_replicate. split; [done|]. by destruct kas.
Qed.

(** X21.  [evalOutputs] only appends to the created list of the
    undo entry, every outpoint it appends belongs to the transaction being
    evaluated and is in the ledger afterwards, and the ledger entry of
    every outpoint it does not append is exactly what it was. *)
Theorem evalOutputs_writes_only_created orders outputs txHash isCoinbase st :
  exists suffix,
    utxosCreated (evalOutputs orders outputs txHash isCoinbase st).2
      = utxosCreated st.2 ++ suffix /\
    utxosDestroyed (evalOutputs orders outputs txHash isCoinbase st).2
      = utxosDestroyed st.2 /\
    Forall (fun op =>
              Hash op = txHash /\
              is_Some (utxos (evalOutputs orders outputs txHash isCoinbase st).1
                         !! op)) suffix /\
    forall op, op ∉ suffix ->
      utxos (evalOutputs orders outputs txHash isCoinbase st).1 !! op
      = utxos st.1 !! op.
Proof.
  unfold evalOutputs.
  destruct (evalOutputs_from_writes orders 0 outputs txHash isCoinbase st)
    as (suffix & Hcr & Hall & Hrest).
  exists suffix. split; [done|]. split; [|done].
  clear. generalize 0%nat. revert st.
  induction outputs as [|output rest IH]; intros st i; [done|].
  simpl. rewrite IH.
  by destruct (evalOutput_spec (orders i) i output txHash isCoinbase st)
    as (kas & _ & ->).
Qed.

End WalletFacts.

(** * Properties of the block helpers *)

Section HelpersFacts.

#[local] Set Default Proof Using "Type".

Variable DecodeAddress : string -> error + Address.
Variable PayToAddrScript : Address -> error + bytes.
Variable opTrueScript : error + bytes.
Variable CalcBlockWorkSubsidy : Z -> Z -> chaincfg.Params -> Z.
Variable CalcBlockTaxSubsidy : Z -> Z -> chaincfg.Params -> Z.
Variable GenerateProvablyPruneableOut : bytes -> error + bytes.

(** ** The extra nonce data *)

Lemma byteOf_value v : Z.of_N (Byte.to_N (byteOf v)) = v mod 256.
Proof.
  unfold byteOf.
  assert (Hr : 0 <= v mod 256 < 256) by (apply Z.mod_pos_bound; lia).
  destruct (Byte.of_N (Z.to_N (v mod 256))) as [b|] eqn:Hb; simpl.
  - apply Byte.to_of_N in Hb. rewrite Hb. apply Z2N.id. lia.
  - apply Byte.of_N_None_iff in Hb. apply N2Z.inj_lt in Hb.
    rewrite Z2N.id in Hb by lia. simpl in Hb. lia.
Qed.

Lemma littleEndian_cons x b :
  littleEndian (x :: b) = Z.of_N (Byte.to_N x) + 256 * littleEndian b.
Proof. done. Qed.

Lemma littleEndian_lowBytes n v :
  littleEndian (lowBytes n v) = v mod 2 ^ (8 * Z.of_nat n).
Proof.
  revert v. induction n as [|n IH]; intros v.
  - simpl. by rewrite Z.mod_1_r.
  - change (lowBytes (S n) v) with (byteOf v :: lowBytes n (v / 256)).
    rewrite littleEndian_cons, byteOf_value, IH.
    replace (8 * Z.of_nat (S n)) with (8 + 8 * Z.of_nat n) by lia.
    rewrite Z.pow_add_r by lia. change (2 ^ 8) with 256.
    symmetry. apply Z.rem_mul_r; [lia|]. apply Z.pow_pos_nonneg; lia.
Qed.

Lemma PutUint32_lowBytes v : PutUint32 v = lowBytes 4 v.
Proof.
  unfold PutUint32. simpl lowBytes.
  rewrite !Z.shiftr_div_pow2 by lia. rewrite !Z.div_div by lia. reflexivity.
Qed.

Lemma PutUint64_lowBytes v : PutUint64 v = lowBytes 8 v.
Proof.
  unfold PutUint64. simpl lowBytes.
  rewrite !Z.shiftr_div_pow2 by lia. rewrite !Z.div_div by lia. reflexivity.
Qed.

Lemma littleEndian_PutUint32 v : littleEndian (PutUint32 v) = v mod 2 ^ 32.
Proof. rewrite PutUint32_lowBytes. apply littleEndian_lowBytes. Qed.

Lemma littleEndian_PutUint64 v : littleEndian (PutUint64 v) = v mod 2 ^ 64.
Proof. rewrite PutUint64_lowBytes. apply littleEndian_lowBytes. Qed.

(** X15.  The data [standardCoinbaseOpReturn] hands to the script builder
    is twelve bytes long: the low 32 bits of the height, little endian, then
    the 64 bits of the extra nonce, little endian.  Read back, the first
    four bytes give the height modulo 2^32 and the other eight the extra
    nonce, so two calls build the same data exactly when their heights agree
    modulo 2^32 and their extra nonces are equal.  The call returns the
    builder's script, or the builder's error with no script. *)
Theorem standardCoinbaseOpReturn_data (height extraNonce height' extraNonce' : Z) :
  0 <= extraNonce < 2 ^ 64 ->
  0 <= extraNonce' < 2 ^ 64 ->
  length (enData height extraNonce) = 12%nat /\
  littleEndian (take 4 (enData height extraNonce)) = height mod 2 ^ 32 /\
  littleEndian (drop 4 (enData height extraNonce)) = extraNonce /\
  (enData height extraNonce = enData height' extraNonce' <->
   height mod 2 ^ 32 = height' mod 2 ^ 32 /\ extraNonce = extraNonce') /\
  standardCoinbaseOpReturn GenerateProvablyPruneableOut height extraNonce =
    match GenerateProvablyPruneableOut (enData height extraNonce) with
    | inl err => ([], Some err)
    | inr script => (script, None)
    end.
Proof.
  intros Hn Hn'.
  assert (Htake : forall h n, take 4 (enData h n) = PutUint32 (uint32 h)) by done.
  assert (Hdrop : forall h n, drop 4 (enData h n) = PutUint64 n) by done.
  assert (Hh : forall h n, littleEndian (take 4 (enData h n)) = h mod 2 ^ 32).
  { intros h n. rewrite Htake, littleEndian_PutUint32. unfold uint32.
    apply Z.mod_mod. lia. }
  assert (Hx : forall h n, 0 <= n < 2 ^ 64 ->
            littleEndian (drop 4 (enData h n)) = n).
  { intros h n Hr. rewrite Hdrop, littleEndian_PutUint64. by apply Z.mod_small. }
  split; [done|]. split; [apply Hh|]. split; [by apply Hx|]. split; [|done].
  split.
  - intros Heq. split.
    + rewrite <- (Hh height extraNonce), <- (Hh height' extraNonce'). by rewrite Heq.
    + rewrite <- (Hx height extraNonce Hn), <- (Hx height' extraNonce' Hn').
      by rewrite Heq.
  - intros [Hheq ->]. unfold enData, uint32. by rewrite Hheq.
Qed.

(** ** The nonce ranges of solveBlock *)

Lemma noncesPerCore_bounds numCores :
  0 < numCores < 2 ^ 32 ->
  1 <= noncesPerCore numCores /\
  noncesPerCore numCores * numCores <= 2 ^ 32 - 1.
Proof.
  intros Hn. unfold noncesPerCore, stopNonce, startNonce, uint32.
  rewrite Z.mod_small by lia.
  replace (2 ^ 32 - 1 - 0) with (2 ^ 32 - 1) by lia.
  split.
  - apply Z.div_le_lower_bound; lia.
  - rewrite Z.mul_comm. apply Z.mul_div_le. lia.
Qed.

Lemma rangeStart_value numCores i :
  0 < numCores < 2 ^ 32 -> 0 <= i < numCores ->
  rangeStart numCores i = noncesPerCore numCores * i.
Proof.
  intros Hn Hi. destruct (noncesPerCore_bounds numCores Hn) as [H1 H2].
  unfold rangeStart, startNonce, uint32.
  assert (0 <= noncesPerCore numCores * i < 2 ^ 32) by nia.
  rewrite (Z.mod_small (noncesPerCore numCores * i)) by done.
  rewrite Z.add_0_l. by apply Z.mod_small.
Qed.

Lemma rangeStop_value numCores i :
  0 < numCores < 2 ^ 32 -> 0 <= i < numCores ->
  rangeStop numCores i =
    if bool_decide (i = numCores - 1) then 2 ^ 32 - 1
    else noncesPerCore numCores * (i + 1) - 1.
Proof.
  intros Hn Hi. destruct (noncesPerCore_bounds numCores Hn) as [H1 H2].
  unfold rangeStop, startNonce, stopNonce.
  replace (uint32 (numCores - 1)) with (numCores - 1)
    by (unfold uint32; rewrite Z.mod_small; lia).
  destruct (bool_decide (i = numCores - 1)) eqn:Hlast; [done|].
  apply bool_decide_eq_false in Hlast.
  assert (0 <= noncesPerCore numCores * (i + 1) < 2 ^ 32) by nia.
  unfold uint32. rewrite (Z.mod_small (i + 1)) by lia.
  rewrite (Z.mod_small (noncesPerCore numCores * (i + 1))) by done.
  rewrite Z.add_0_l. rewrite (Z.mod_small (noncesPerCore numCores * (i + 1))) by done.
  apply Z.mod_small. nia.
Qed.

(** X16.  [solveBlock] splits the nonces among the cores without gap or
    overlap: for any number of cores from 1 to 2^32 - 1, every 32-bit nonce
    lies in the range of exactly one core. *)
Theorem solveBlock_ranges_tile (numCores n : Z) :
  0 < numCores < 2 ^ 32 ->
  0 <= n < 2 ^ 32 ->
  exists i,
    0 <= i < numCores /\
    rangeStart numCores i <= n <= rangeStop numCores i /\
    forall j, 0 <= j < numCores ->
      rangeStart numCores j <= n <= rangeStop numCores j -> j = i.
Proof.
  intros Hn Hnonce. destruct (noncesPerCore_bounds numCores Hn) as [H1 H2].
  set (p := noncesPerCore numCores) in *.
  assert (Hin : forall j, 0 <= j < numCores ->
            (rangeStart numCores j <= n <= rangeStop numCores j <->
             p * j <= n /\ (j = numCores - 1 \/ n < p * (j + 1)))).
  { intros j Hj. rewrite rangeStart_value, rangeStop_value by done. fold p.
    destruct (bool_decide (j = numCores - 1)) eqn:Hlast.
    - apply bool_decide_eq_true in Hlast. lia.
    - apply bool_decide_eq_false in Hlast. lia. }
  pose proof (Z.div_mod n p ltac:(lia)) as Hdiv.
  pose proof (Z.mod_pos_bound n p ltac:(lia)) as Hmod.
  assert (Hq : 0 <= n / p) by (apply Z.div_pos; lia).
  destruct (decide (n / p < numCores - 1)) as [Hlt|Hge].
  - exists (n / p). split; [lia|]. split.
    + apply Hin; [lia|]. nia.
    + intros j Hj Hjn. apply Hin in Hjn; [|done].
      destruct Hjn as [Hlo [->|Hhi]]; nia.
  - exists (numCores - 1). split; [lia|]. split.
    + apply Hin; [lia|]. split; [nia | by left].
    + intros j Hj Hjn. apply Hin in Hjn; [|done].
      destruct Hjn as [Hlo [->|Hhi]]; [done|]. nia.
Qed.

(** ** The solver loop *)

Lemma solverLoop_scan solves start stop :
  0 <= start -> stop < 2 ^ 32 -> (0 < start \/ stop < 2 ^ 32 - 1) ->
  forall (k : nat) (fuel : nat) (i : Z),
    Z.of_nat k = stop - i -> start <= i -> (k + 2 <= fuel)%nat ->
    exists r,
      solverLoop solves start stop fuel i = Some r /\
      (found r = true ->
         i <= nonce r <= stop /\ solves (nonce r) = true /\
         forall m, i <= m < nonce r -> solves m = false) /\
      (found r = false -> forall m, i <= m <= stop -> solves m = false).
Proof.
  intros Hstart Hstop Hnowrap.
  induction k as [|k IH]; intros fuel i Hk Hi Hfuel.
  - destruct fuel as [|[|fuel]]; [lia | lia |].
    assert (i = stop) by lia. subst i.
    cbn [solverLoop].
    rewrite (proj2 (Z.leb_le start stop)), (proj2 (Z.leb_le stop stop)) by lia.
    cbn [andb].
    destruct (solves stop) eqn:Hsol.
    + eexists. split; [reflexivity|]. simpl. split; [|done].
      intros _. split; [lia|]. split; [done|]. intros m Hm. lia.
    + assert (Hout : (start <=? uint32 (stop + 1)) && (uint32 (stop + 1) <=? stop)
                     = false).
      { unfold uint32. destruct (decide (stop = 2 ^ 32 - 1)) as [->|Hne].
        - change ((2 ^ 32 - 1 + 1) mod 2 ^ 32) with 0.
          apply andb_false_iff. left. apply Z.leb_gt. lia.
        - rewrite Z.mod_small by lia.
          apply andb_false_iff. right. apply Z.leb_gt. lia. }
      rewrite Hout. eexists. split; [reflexivity|]. simpl. split; [done|].
      intros _ m Hm. by replace m with stop by lia.
  - destruct fuel as [|fuel]; [lia|].
    cbn [solverLoop].
    rewrite (proj2 (Z.leb_le start i)), (proj2 (Z.leb_le i stop)) by lia.
    cbn [andb].
    destruct (solves i) eqn:Hsol.
    + eexists. split; [reflexivity|]. simpl. split; [|done].
      intros _. split; [lia|]. split; [done|]. intros m Hm. lia.
    + replace (uint32 (i + 1)) with (i + 1)
        by (unfold uint32; rewrite Z.mod_small; lia).
      destruct (IH fuel (i + 1)) as (r & Hr & Hfound & Hnone); [lia | lia | lia |].
      exists r. split; [done|]. split.
      * intros Hf. destruct (Hfound Hf) as (Hrange & Hs & Hleast).
        split; [lia|]. split; [done|]. intros m Hm.
        destruct (decide (m = i)) as [->|Hne]; [done|]. apply Hleast. lia.
      * intros Hf m Hm.
        destruct (decide (m = i)) as [->|Hne]; [done|]. apply Hnone; [done|lia].
Qed.

(** X17.  A solver whose range does not cover all 2^32 nonces (its start is
    above 0 or its stop below 2^32 - 1) gives its answer after at most
    stop - start + 2 rounds of the loop.  If it reports a nonce, that nonce
    is in the range, solves the header, and no smaller nonce of the range
    does; if it reports that there is none, no nonce of the range solves
    the header.  In particular the loop ends after the last nonce
    4294967295, whose successor wraps to 0. *)
Theorem solver_finds_least (solves : Z -> bool) (start stop : Z) (fuel : nat) :
  0 <= start <= stop ->
  stop < 2 ^ 32 ->
  0 < start \/ stop < 2 ^ 32 - 1 ->
  stop - start + 2 <= Z.of_nat fuel ->
  exists r,
    solver solves start stop fuel = Some r /\
    (found r = true ->
       start <= nonce r <= stop /\ solves (nonce r) = true /\
       forall m, start <= m < nonce r -> solves m = false) /\
    (found r = false -> forall m, start <= m <= stop -> solves m = false).
Proof.
  intros Hrange Hstop Hnowrap Hfuel. unfold solver.
  apply (solverLoop_scan solves start stop) with (k := Z.to_nat (stop - start));
    lia.
Qed.

Lemma solverLoop_spins solves fuel i :
  (forall m, 0 <= m < 2 ^ 32 -> solves m = false) ->
  0 <= i < 2 ^ 32 ->
  solverLoop solves 0 (2 ^ 32 - 1) fuel i = None.
Proof.
  intros Hnone. revert i. induction fuel as [|fuel IH]; intros i Hi; [done|].
  cbn [solverLoop].
  rewrite (proj2 (Z.leb_le 0 i)), (proj2 (Z.leb_le i (2 ^ 32 - 1))) by lia.
  cbn [andb]. rewrite Hnone by done.
  apply IH. unfold uint32. apply Z.mod_pos_bound. lia.
Qed.

(** X18.  With a single core the one solver gets the whole range 0 to
    4294967295, and then the guard of its loop cannot fail: after the last
    nonce the counter wraps to 0, which is not below the start.  So if no
    nonce solves the header, the solver never reports that there is none:
    it is still looping after any number of rounds. *)
Theorem solver_single_core_never_gives_up (solves : Z -> bool) (fuel : nat) :
  (forall m, 0 <= m < 2 ^ 32 -> solves m = false) ->
  rangeStart 1 0 = 0 /\
  rangeStop 1 0 = 2 ^ 32 - 1 /\
  solver solves (rangeStart 1 0) (rangeStop 1 0) fuel = None.
Proof.
  intros Hnone. split; [done|]. split; [done|].
  change (rangeStart 1 0) with 0. change (rangeStop 1 0) with (2 ^ 32 - 1).
  unfold solver. apply solverLoop_spins; [done|lia].
Qed.

(** ** createCoinbaseTx *)

Lemma block_one_outputs ledger outs outs' :
  (exists addrs,
     decodeLedger DecodeAddress ledger = inr addrs /\
     payLedger PayToAddrScript ledger addrs outs = inr outs') <->
  exists new,
    outs' = outs ++ new /\
    Forall2 (ledgerOutput DecodeAddress PayToAddrScript) ledger new.
Proof.
  revert outs. induction ledger as [|payout rest IH]; intros outs.
  - simpl. split.
    + intros (addrs & [= <-] & [= <-]). exists []. split; [by rewrite app_nil_r|constructor].
    + intros (new & -> & HF). apply Forall2_nil_inv_l in HF as ->.
      exists []. by rewrite app_nil_r.
  - split.
    + intros (addrs & Hdec & Hpay). simpl in Hdec.
      destruct (DecodeAddress (chaincfg.PayoutAddress payout)) as [?|addr] eqn:Ha; [done|].
      destruct (decodeLedger DecodeAddress rest) as [?|addrs0] eqn:Hrest; [done|].
      injection Hdec as <-. simpl in Hpay.
      destruct (PayToAddrScript addr) as [?|pks] eqn:Hp; [done|].
      destruct (proj1 (IH (outs ++ [{| wire.Value := chaincfg.PayoutAmount payout;
                                       wire.PkScript := pks |}])))
        as (new0 & -> & HF); [by exists addrs0|].
      eexists (_ :: new0). split; [by rewrite <- app_assoc|].
      constructor; [|done]. split; [done|]. by exists addr.
    + intros (new & -> & HF).
      apply Forall2_cons_inv_l in HF as (out & new0 & (Hv & addr & Ha & Hp) & HF & ->).
      destruct (proj2 (IH (outs ++ [out]))) as (addrs0 & Hdec & Hpay).
      { exists new0. split; [by rewrite <- app_assoc | done]. }
      exists (addr :: addrs0). simpl. rewrite Ha, Hdec, Hp. split; [done|].
      rewrite <- Hv. by destruct out.
Qed.

(** X19.  Block one with a non-empty ledger.  [createCoinbaseTx] returns a
    transaction exactly when every ledger address decodes and a script can
    be built for each; the transaction then has one output per ledger
    entry, in ledger order, carrying the entry's amount and the script of
    its address, and its single input carries the block-one subsidy.  The
    [mineTo] outputs are not looked at. *)
Theorem createCoinbaseTx_block_one (coinbaseScript : bytes)
    (addr : option Address) (mineTo : list wire.TxOut)
    (params : chaincfg.Params) (random : error + Z) (tx : wire.MsgTx) :
  chaincfg.BlockOneLedger params <> [] ->
  createCoinbaseTx DecodeAddress PayToAddrScript opTrueScript
    CalcBlockWorkSubsidy CalcBlockTaxSubsidy GenerateProvablyPruneableOut
    coinbaseScript 1 addr mineTo params random = inr tx <->
  exists outs,
    Forall2 (ledgerOutput DecodeAddress PayToAddrScript)
      (chaincfg.BlockOneLedger params) outs /\
    tx = {| wire.TxIns := [setValueIn (chaincfg.BlockOneSubsidy params)
                             (coinbaseTxIn coinbaseScript)];
            wire.TxOuts := outs |}.
Proof.
  intros Hledger. unfold createCoinbaseTx.
  rewrite bool_decide_eq_true_2 by done.
  rewrite (bool_decide_eq_false_2 (length _ = 0%nat))
    by (by destruct (chaincfg.BlockOneLedger params)).
  cbn [andb negb].
  pose proof (block_one_outputs (chaincfg.BlockOneLedger params) []) as Hspec.
  split.
  - destruct (decodeLedger DecodeAddress _) as [?|addrs] eqn:Hdec; [done|].
    destruct (payLedger PayToAddrScript _ addrs []) as [?|outs] eqn:Hpay; [done|].
    intros [= <-]. exists outs. split; [|done].
    destruct (proj1 (Hspec outs)) as (new & -> & HF); [by exists addrs | done].
  - intros (outs & HF & ->).
    destruct (proj2 (Hspec outs)) as (addrs & Hdec & Hpay); [by exists outs|].
    by rewrite Hdec, Hpay.
Qed.

(** X20.  Any other block.  When [createCoinbaseTx] returns a transaction,
    it has three outputs, in this order: the tax, an output of value 0 with
    the extra-nonce script (empty if that script could not be built: the
    error is not looked at), and the subsidy paid to the script of [addr],
    or to the anyone-can-spend script when [addr] is nil.  The value of its
    single input is subsidy plus tax, which is the sum of the output values
    as an int64.  The [mineTo] outputs are not part of it. *)
Theorem createCoinbaseTx_regular (coinbaseScript : bytes) (nextBlockHeight : Z)
    (addr : option Address) (mineTo : list wire.TxOut)
    (params : chaincfg.Params) (random : error + Z) (tx : wire.MsgTx) :
  nextBlockHeight <> 1 \/ chaincfg.BlockOneLedger params = [] ->
  createCoinbaseTx DecodeAddress PayToAddrScript opTrueScript
    CalcBlockWorkSubsidy CalcBlockTaxSubsidy GenerateProvablyPruneableOut
    coinbaseScript nextBlockHeight addr mineTo params random = inr tx ->
  exists taxScript rnd pksSubsidy,
    random = inr rnd /\
    match addr with
    | Some a => PayToAddrScript a = inr pksSubsidy
    | None => opTrueScript = inr pksSubsidy
    end /\
    wire.TxOuts tx =
      [ {| wire.Value := CalcBlockTaxSubsidy nextBlockHeight
                           (chaincfg.TicketsPerBlock params) params;
           wire.PkScript := taxScript |};
        {| wire.Value := 0;
           wire.PkScript :=
             (standardCoinbaseOpReturn GenerateProvablyPruneableOut
                nextBlockHeight rnd).1 |};
        {| wire.Value := CalcBlockWorkSubsidy nextBlockHeight
                           (chaincfg.TicketsPerBlock params) params;
           wire.PkScript := pksSubsidy |} ] /\
    wire.TxIns tx =
      [setValueIn (int64 (sumValues (wire.TxOuts tx))) (coinbaseTxIn coinbaseScript)].
Proof.
  intros Hbranch. unfold createCoinbaseTx.
  assert (Hcond : bool_decide (nextBlockHeight = 1)
                  && negb (bool_decide (length (chaincfg.BlockOneLedger params) = 0%nat))
                  = false).
  { destruct Hbranch as [Hne| ->].
    - by rewrite bool_decide_eq_false_2.
    - simpl. apply andb_false_r. }
  rewrite Hcond. cbv zeta.
  destruct (bool_decide (0 < chaincfg.BlockTaxProportion params));
    destruct opTrueScript as [?|trueScript] eqn:Htrue; try done;
    (destruct random as [?|rnd]; [done|]);
    destruct addr as [a|];
    try (destruct (PayToAddrScript a) as [?|pa] eqn:Hpa); try done;
    intros [= <-]; eexists _, rnd, _;
    (split; [done|]); (split; [first [eassumption | reflexivity]|]);
    (split; [reflexivity|]);
    cbn [wire.TxIns wire.TxOuts]; unfold sumValues; cbn [foldr wire.Value];
    do 3 f_equal; lia.
Qed.

End HelpersFacts.

(** * The examples, checked *)

(** ** C1 *)

Lemma UnwindBlock_applyUpdate_witness :
  exists w',
    UnwindBlock simFromBytes reversed header101
      (applyUpdate simOrders block101 simWallet100) = Returns w' /\
    utxos w' = utxos simWallet100 /\
    utxos w' !! coinbaseOutPoint = Some coinbaseRecord /\
    reorgJournal w' !! 101 = None /\
    currentHeight w' = 101.
Proof.
  assert (Hcreated :
    utxosCreated (journalled simOrders block101 simWallet100) = [spendOutPoint])
    by (vm_compute; reflexivity).
  destruct (UnwindBlock_applyUpdate simFromBytes simOrders reversed block101
              simWallet100 header101 {| Height := 101 |})
    as (w' & Hret & Hutxos & Hgone & _ & Hheight & _).
  - reflexivity.
  - reflexivity.
  - intros op Hin. rewrite Hcreated in Hin.
    apply list_elem_of_singleton in Hin as ->. vm_compute. reflexivity.
  - intros tx txIn Htx HtxIn. rewrite Hcreated.
    apply list_elem_of_singleton in Htx as ->.
    apply list_elem_of_singleton in HtxIn as ->.
    intros Hin. apply list_elem_of_singleton in Hin. discriminate Hin.
  - exists w'. split; [exact Hret|]. split; [exact Hutxos|].
    split; [rewrite Hutxos; vm_compute; reflexivity|].
    split; [exact Hgone | exact Hheight].
Defined.

(** The height is not rewound: block 100 applied at height 99 and then
    disconnected leaves the wallet at height 100. *)
Lemma UnwindBlock_keeps_height :
  exists w',
    UnwindBlock simFromBytes inOrder header100
      (applyUpdate simOrders block100 simWallet99) = Returns w' /\
    currentHeight simWallet99 = 99 /\
    currentHeight w' = 100.
Proof. eexists. split; [vm_compute; reflexivity|]. split; reflexivity. Qed.

(** Outside the hypotheses of the theorem.  When a transaction of the block
    spends an output of an earlier transaction of the same block, the
    outpoint is both in the created list and in the destroyed map; unwinding
    deletes it and then puts it back, so the ledger ends with a record it
    did not have before the block. *)
Example UnwindBlock_after_in_block_spend :
  exists w',
    UnwindBlock simFromBytes inOrder header100
      (applyUpdate simOrders chainedBlock simWallet99) = Returns w' /\
    utxos simWallet99 !! chainedOutPoint = None /\
    utxos (applyUpdate simOrders chainedBlock simWallet99) !! chainedOutPoint = None /\
    is_Some (utxos w' !! chainedOutPoint).
Proof.
  eexists. split; [vm_compute; reflexivity|].
  split; [reflexivity|]. split; [vm_compute; reflexivity|].
  vm_compute. by eexists.
Qed.

(** ** C2 *)

Lemma UnwindBlock_unknown_height_panics_witness :
  reorgJournal simWallet !! 100 = None /\
  UnwindBlock simFromBytes inOrder header100 simWallet = Panics NilDereference.
Proof.
  split; [reflexivity|].
  apply (UnwindBlock_unknown_height_panics simFromBytes inOrder header100
           {| Height := 100 |} simWallet); reflexivity.
Defined.

(** ** C3 *)

(** Two blocks are announced before the synchronizer wakes up; a third one
    arrives between its two iterations. *)
Example chainSyncer_fifo_run :
  match run simFromBytes
          [BlockConnected header100 []; BlockConnected header101 [];
           SyncerWakes simOrders; BlockConnected header100 [];
           SyncerWakes simOrders; SyncerWakes simOrders]
          (mkHarness simWallet 0 true []) with
  | Some (Returns h) => synced h = [100; 101; 100]
  | _ => False
  end.
Proof. vm_compute. reflexivity. Qed.

(** ** C4 *)

Lemma maturity_gating_witness :
  utxos simWallet100 !! coinbaseOutPoint = Some coinbaseRecord /\
  maturityHeight coinbaseRecord = 100 + 16 /\
  balanceOf inOrder EmptyString simWallet100
    = balanceOf reversed EmptyString (without coinbaseOutPoint simWallet100) /\
  balanceOf inOrder EmptyString simWallet116
    = int64 (balanceOf reversed EmptyString (without coinbaseOutPoint simWallet116)
             + 500000000).
Proof.
  split; [vm_compute; reflexivity|]. split; [reflexivity|].
  split.
  - destruct (maturity_gating simOrders inOrder reversed EmptyString block100
                simWallet coinbaseOutPoint coinbaseRecord simWallet100
                coinbaseRecord)
      as (_ & Hbelow & _).
    + vm_compute. split; [discriminate | reflexivity].
    + vm_compute. reflexivity.
    + vm_compute. discriminate.
    + vm_compute. reflexivity.
    + reflexivity.
    + apply Hbelow. vm_compute. reflexivity.
  - destruct (maturity_gating simOrders inOrder reversed EmptyString block100
                simWallet coinbaseOutPoint coinbaseRecord simWallet116
                coinbaseRecord)
      as (_ & _ & Hfrom & _).
    + vm_compute. split; [discriminate | reflexivity].
    + vm_compute. reflexivity.
    + vm_compute. discriminate.
    + vm_compute. reflexivity.
    + reflexivity.
    + apply Hfrom; [vm_compute; discriminate | reflexivity].
Defined.

(** A coinbase record whose maturity height has been reached is still left
    out of balance and listing while it is locked. *)
Lemma mature_but_locked_excluded :
  utxos simWallet116_locked !! coinbaseOutPoint = Some lockedRecord /\
  maturityHeight lockedRecord = 116 /\
  currentHeight simWallet116_locked = 116 /\
  balanceOf inOrder EmptyString simWallet116_locked = 0 /\
  listingOf inOrder simWallet116_locked = [].
Proof. repeat split; vm_compute; reflexivity. Qed.

(** ** C5 *)

Lemma locked_record_excluded_until_unlocked_witness :
  balanceOf inOrder EmptyString simWallet116_locked
    = balanceOf inOrder EmptyString (without coinbaseOutPoint simWallet116_locked) /\
  utxos (UnlockOutputs [{| PreviousOutPoint := coinbaseOutPoint |}]
           simWallet116_locked).2 !! coinbaseOutPoint = Some coinbaseRecord.
Proof.
  destruct (locked_record_excluded_until_unlocked inOrder inOrder EmptyString
              simWallet116_locked coinbaseOutPoint lockedRecord
              [{| PreviousOutPoint := coinbaseOutPoint |}])
    as ((Hbal & _) & _ & Hunlocked & _).
  - vm_compute. reflexivity.
  - reflexivity.
  - apply list_elem_of_singleton. reflexivity.
  - split; [exact Hbal | exact Hunlocked].
Defined.

(** ** C7 *)

Lemma NewAddress_indices_dense_witness :
  (NewAddress_n simChild simECPrivKey simKeyToAddr simLoadTxFilter 5
     simNewWallet []).1.1.*1 = [0; 1; 2] /\
  hdIndex (NewAddress_n simChild simECPrivKey simKeyToAddr simLoadTxFilter 5
             simNewWallet []).1.2 = 3.
Proof.
  destruct (NewAddress_n simChild simECPrivKey simKeyToAddr simLoadTxFilter 5
              simNewWallet []) as [[l w'] node'] eqn:Hrun.
  destruct (NewAddress_indices_dense simChild simECPrivKey simKeyToAddr
              simLoadTxFilter 5 simNewWallet [] l w' node' Hrun)
    as (Hseq & _ & Hidx & _).
  - vm_compute. discriminate.
  - vm_compute. reflexivity.
  - vm_compute in Hrun. injection Hrun as <- <- <-. split; reflexivity.
Defined.

(** At index 4294967295 the counter wraps: the next address is registered at
    index 0, which the wallet had issued before. *)
Lemma NewAddress_index_wraps :
  hdIndex simWalletLastIndex = 2 ^ 32 - 1 /\
  is_Some (addrs simWalletLastIndex !! 0) /\
  (NewAddress_n simChild simECPrivKey simKeyToAddr simLoadTxFilter 2
     simWalletLastIndex []).1.1.*1 = [4294967295; 0] /\
  hdIndex (NewAddress simChild simECPrivKey simKeyToAddr simLoadTxFilter
             simWalletLastIndex []).1.2 = 0.
Proof.
  split; [reflexivity|]. split; [by eexists|].
  split; vm_compute; reflexivity.
Qed.

(** ** C8 *)

Lemma evalInputs_skips_unknown_witness :
  utxos simWallet100 !! nullOutPoint = None /\
  evalInputs [{| PreviousOutPoint := nullOutPoint |};
              {| PreviousOutPoint := coinbaseOutPoint |}]
    (simWallet100, {| utxosDestroyed := ∅; utxosCreated := [] |})
  = evalInputs [{| PreviousOutPoint := coinbaseOutPoint |}]
      (simWallet100, {| utxosDestroyed := ∅; utxosCreated := [] |}).
Proof.
  split; [vm_compute; reflexivity|].
  apply (evalInputs_skips_unknown [] [{| PreviousOutPoint := coinbaseOutPoint |}]
           {| PreviousOutPoint := nullOutPoint |}
           (simWallet100, {| utxosDestroyed := ∅; utxosCreated := [] |})).
  vm_compute. reflexivity.
Defined.

(** ** C9 *)

Lemma NewAddress_failure_atomic_witness :
  exists node',
    NewAddress simChild simECPrivKey simKeyToAddr simLoadTxFilter
      (set_hdIndex 3 simWallet) []
    = (inl "invalid child"%string, set_hdIndex 3 simWallet, node').
Proof.
  destruct (NewAddress_failure_atomic simChild simECPrivKey simKeyToAddr
              simLoadTxFilter (set_hdIndex 3 simWallet) []
              "invalid child"%string) as (node' & Hret & _).
  - left. reflexivity.
  - exists node'. exact Hret.
Defined.

(** ** C10 *)

Lemma evalOutputs_multiple_owners_witness :
  length (owners sharedOutput simWallet) = 2%nat /\
  (exists ka, ka ∈ owners sharedOutput simWallet /\
     utxos (evalOutputs (fun _ => reversed) [plainOutput; sharedOutput; plainOutput]
              [Byte.xee] false
              (simWallet, {| utxosDestroyed := ∅; utxosCreated := [] |})).1
       !! outpointOf [Byte.xee] 1
     = Some (newRecord simWallet false sharedOutput ka.1)) /\
  utxosCreated
    (evalOutputs (fun _ => reversed) [plainOutput; sharedOutput; plainOutput]
       [Byte.xee] false
       (simWallet, {| utxosDestroyed := ∅; utxosCreated := [] |})).2
  = [outpointOf [Byte.xee] 1; outpointOf [Byte.xee] 1].
Proof.
  split; [vm_compute; reflexivity|].
  split; [|vm_compute; reflexivity].
  apply (evalOutputs_multiple_owners (fun _ => reversed) [plainOutput]
           sharedOutput [plainOutput] [Byte.xee] false
           (simWallet, {| utxosDestroyed := ∅; utxosCreated := [] |})).
  - vm_compute. discriminate.
  - vm_compute. lia.
Defined.

(** ** Ledger, journal and synchronizer *)

Lemma UnwindBlock_consumes_entry_witness :
  exists w',
    UnwindBlock simFromBytes inOrder header100 simWallet100 = Returns w' /\
    reorgJournal w' !! 100 = None /\
    UnwindBlock simFromBytes reversed header100 w' = Panics NilDereference.
Proof.
  assert (Hret : exists w',
            UnwindBlock simFromBytes inOrder header100 simWallet100 = Returns w')
    by (eexists; vm_compute; reflexivity).
  destruct Hret as [w' Hret].
  destruct (UnwindBlock_consumes_entry simFromBytes inOrder reversed header100
              simWallet100 w' Hret)
    as (hdr & Hhdr & Hjournal & _ & _ & _ & Hpanic).
  exists w'. split; [exact Hret|]. split; [|exact Hpanic].
  rewrite Hjournal. vm_compute in Hhdr. injection Hhdr as <-.
  vm_compute. reflexivity.
Defined.

Lemma evalOutputs_no_owner_witness :
  evalOutputs (fun _ => reversed) [plainOutput; plainOutput] [Byte.xc0] false
    (simWallet100, {| utxosDestroyed := ∅; utxosCreated := [] |})
  = (simWallet100, {| utxosDestroyed := ∅; utxosCreated := [] |}).
Proof.
  apply (evalOutputs_no_owner (fun _ => reversed) [plainOutput; plainOutput]
           [Byte.xc0] false
           (simWallet100, {| utxosDestroyed := ∅; utxosCreated := [] |})).
  repeat constructor.
Defined.



Lemma chainSyncer_stop_is_final_witness :
  exists h',
    run simFromBytes
      [SyncerStops; BlockConnected header100 []; BlockConnected header101 []]
      (mkHarness simWallet 0 true []) = Some (Returns h') /\
    running h' = false /\
    synced h' = [] /\
    currentHeight (wallet h') = 0.
Proof.
  assert (Hrun : exists h',
            run simFromBytes
              [SyncerStops; BlockConnected header100 [];
               BlockConnected header101 []]
              (mkHarness simWallet 0 true []) = Some (Returns h'))
    by (eexists; vm_compute; reflexivity).
  destruct Hrun as [h' Hrun].
  destruct (chainSyncer_stop_is_final simFromBytes _ _ h' Hrun)
    as (Hstopped & Hsynced & Hheight & _).
  exists h'. split; [exact Hrun|]. split; [exact Hstopped|].
  split; [exact Hsynced | exact Hheight].
Defined.

Lemma queued_heights_are_uint32_witness :
  exists h,
    run simFromBytes
      [BlockConnected header100 []; BlockConnected header101 [];
       SyncerWakes simOrders]
      (mkHarness (set_chainUpdates [] simWallet) 0 true []) = Some (Returns h) /\
    Forall (fun z => 0 <= z < 2 ^ 32) (synced h) /\
    Forall (fun u => 0 <= blockHeight u < 2 ^ 32) (chainUpdates (wallet h)).
Proof.
  assert (Hrun : exists h,
            run simFromBytes
              [BlockConnected header100 []; BlockConnected header101 [];
               SyncerWakes simOrders]
              (mkHarness (set_chainUpdates [] simWallet) 0 true [])
            = Some (Returns h))
    by (eexists; vm_compute; reflexivity).
  destruct Hrun as [h Hrun].
  exists h. split; [exact Hrun|].
  exact (queued_heights_are_uint32 simFromBytes _ simWallet h Hrun).
Defined.

(** ** The block helpers *)

(** Only the low 32 bits of the height reach the extra nonce data. *)
Lemma standardCoinbaseOpReturn_data_witness :
  littleEndian (take 4 (enData (2 ^ 32 + 5) 7)) = 5 /\
  littleEndian (drop 4 (enData (2 ^ 32 + 5) 7)) = 7 /\
  enData (2 ^ 32 + 5) 7 = enData 5 7.
Proof.
  destruct (standardCoinbaseOpReturn_data simGenerateProvablyPruneableOut
              (2 ^ 32 + 5) 7 5 7)
    as (_ & Hheight & Hnonce & Heq & _); [lia | lia |].
  split; [exact Hheight|]. split; [exact Hnonce|].
  apply Heq. split; reflexivity.
Defined.

Lemma solveBlock_ranges_tile_witness :
  exists i,
    0 <= i < 4 /\
    rangeStart 4 i <= 3000000000 <= rangeStop 4 i /\
    forall j, 0 <= j < 4 ->
      rangeStart 4 j <= 3000000000 <= rangeStop 4 j -> j = i.
Proof. apply (solveBlock_ranges_tile 4 3000000000); lia. Defined.

Lemma solver_finds_least_witness :
  exists r,
    solver simSolves 1000 2000 1002 = Some r /\
    (found r = true ->
       1000 <= nonce r <= 2000 /\ simSolves (nonce r) = true /\
       forall m, 1000 <= m < nonce r -> simSolves m = false) /\
    (found r = false -> forall m, 1000 <= m <= 2000 -> simSolves m = false).
Proof. apply (solver_finds_least simSolves 1000 2000 1002); lia. Defined.

Lemma solver_single_core_never_gives_up_witness :
  rangeStart 1 0 = 0 /\
  rangeStop 1 0 = 2 ^ 32 - 1 /\
  solver (fun _ => false) (rangeStart 1 0) (rangeStop 1 0) 1000 = None.
Proof.
  apply (solver_single_core_never_gives_up (fun _ => false) 1000).
  intros m Hm. reflexivity.
Defined.

Lemma createCoinbaseTx_block_one_witness :
  createCoinbaseTx simDecodeAddress simPayToAddrScript simOpTrueScript
    simCalcBlockWorkSubsidy simCalcBlockTaxSubsidy simGenerateProvablyPruneableOut
    [Byte.x01] 1 None [] simParams (inl "no entropy"%string)
  = inr {| wire.TxIns := [setValueIn 12 (coinbaseTxIn [Byte.x01])];
           wire.TxOuts :=
             [ {| wire.Value := 5;
                  wire.PkScript := Byte.x76 :: simScriptHash 3 ++ [Byte.xac] |};
               {| wire.Value := 7;
                  wire.PkScript := Byte.x76 :: simScriptHash 4 ++ [Byte.xac] |} ] |}.
Proof.
  apply (createCoinbaseTx_block_one simDecodeAddress simPayToAddrScript
           simOpTrueScript simCalcBlockWorkSubsidy simCalcBlockTaxSubsidy
           simGenerateProvablyPruneableOut [Byte.x01] None [] simParams
           (inl "no entropy"%string)).
  - discriminate.
  - eexists. split; [|reflexivity].
    repeat constructor; eexists; split; reflexivity.
Defined.

Lemma createCoinbaseTx_regular_witness :
  exists tx,
    createCoinbaseTx simDecodeAddress simPayToAddrScript simOpTrueScript
      simCalcBlockWorkSubsidy simCalcBlockTaxSubsidy simGenerateProvablyPruneableOut
      [Byte.x01] 2 (Some (simAddr 0)) [] simParams (inr 7) = inr tx /\
    map wire.Value (wire.TxOuts tx) = [50; 0; 300] /\
    map wire.ValueIn (wire.TxIns tx) = [350].
Proof.
  destruct (createCoinbaseTx simDecodeAddress simPayToAddrScript simOpTrueScript
              simCalcBlockWorkSubsidy simCalcBlockTaxSubsidy
              simGenerateProvablyPruneableOut
              [Byte.x01] 2 (Some (simAddr 0)) [] simParams (inr 7))
    as [err|tx] eqn:Hrun; [vm_compute in Hrun; discriminate Hrun|].
  destruct (createCoinbaseTx_regular simDecodeAddress simPayToAddrScript
              simOpTrueScript simCalcBlockWorkSubsidy simCalcBlockTaxSubsidy
              simGenerateProvablyPruneableOut [Byte.x01] 2 (Some (simAddr 0)) []
              simParams (inr 7) tx)
    as (taxScript & rnd & pks & _ & _ & Houts & Hins).
  - left. lia.
  - exact Hrun.
  - exists tx. split; [reflexivity|].
    rewrite Hins, Houts. split; reflexivity.
Defined.
